(** * LokaScript usage scanner and aggregator

    A shallow embedding of [lokascript/scanner.py] and
    [lokascript/aggregator.py]: the extraction patterns, the classifier,
    the language detector, the regional bundle selector, the file scanner
    and the incremental aggregator, followed by the properties proved about
    them. *)

From Stdlib Require Import NArith Ascii String.
From stdpp Require Import gmap list fin_maps sorting.

Local Open Scope N_scope.

(** ** Python strings

    A Python [str] is a sequence of Unicode code points.  Literals of the
    source file are written as UTF-8 text and decoded by [py]. *)

Abbreviation pystr := (list N).

Module PyStr.

Fixpoint bytes_of (s : string) : list N :=
  match s with
  | EmptyString => []
  | String a r => N_of_ascii a :: bytes_of r
  end.

(** UTF-8 decoding of a well-formed byte sequence; a truncated trailing
    sequence is dropped. *)
Fixpoint utf8_decode (bs : list N) : pystr :=
  match bs with
  | [] => []
  | b0 :: r0 =>
    if b0 <? 128 then b0 :: utf8_decode r0
    else match r0 with
    | [] => []
    | b1 :: r1 =>
      if b0 <? 224 then ((b0 - 192) * 64 + (b1 - 128)) :: utf8_decode r1
      else match r1 with
      | [] => []
      | b2 :: r2 =>
        if b0 <? 240
        then ((b0 - 224) * 4096 + (b1 - 128) * 64 + (b2 - 128)) :: utf8_decode r2
        else match r2 with
        | [] => []
        | b3 :: r3 =>
          ((b0 - 240) * 262144 + (b1 - 128) * 4096 + (b2 - 128) * 64 + (b3 - 128))
            :: utf8_decode r3
        end
      end
    end
  end.

Definition py (s : string) : pystr := utf8_decode (bytes_of s).

(** [str.isspace] on one code point, which is also the class [\s] of a
    [str] pattern and the set removed by [str.strip()]. *)
Definition is_space (c : N) : bool :=
  ((9 <=? c) && (c <=? 13)) || ((28 <=? c) && (c <=? 32))
  || (c =? 133) || (c =? 160) || (c =? 5760)
  || ((8192 <=? c) && (c <=? 8202))
  || (c =? 8232) || (c =? 8233) || (c =? 8239) || (c =? 8287) || (c =? 12288).

Fixpoint lstrip (s : pystr) : pystr :=
  match s with
  | c :: r => if is_space c then lstrip r else s
  | [] => []
  end.

Definition rstrip (s : pystr) : pystr := reverse (lstrip (reverse s)).

(** [s.strip()] *)
Definition strip (s : pystr) : pystr := rstrip (lstrip s).

Fixpoint starts_with (kw s : pystr) : bool :=
  match kw, s with
  | [], _ => true
  | k :: kw', c :: s' => (k =? c) && starts_with kw' s'
  | _ :: _, [] => false
  end.

(** [kw in s] on strings: substring containment. *)
Fixpoint contains (kw s : pystr) : bool :=
  starts_with kw s ||
  match s with
  | [] => false
  | _ :: s' => contains kw s'
  end.

(** The order of [str]: lexicographic on code points. *)
Fixpoint str_le (a b : pystr) : bool :=
  match a, b with
  | [], _ => true
  | _ :: _, [] => false
  | x :: a', y :: b' =>
    if x <? y then true else if y <? x then false else str_le a' b'
  end.

Definition str_before (a b : pystr) : Prop := str_le a b = true.

#[export] Instance str_before_dec (a b : pystr) : Decision (str_before a b).
Proof. unfold str_before. apply _. Defined.

(** [sorted(s)] for a set of strings. *)
Definition py_sorted (s : gset pystr) : list pystr :=
  merge_sort str_before (elements s).

End PyStr.
Export PyStr.

(** The tables of the interpreter's Unicode database that the scanner
    consults through [\w], [\b], [\d] and [str.lower()]. *)
Class UnicodeDB := {
  isalnum : N → bool;
  isdecimal : N → bool;
  lower : pystr → pystr;
}.

(** The class [\w] of a [str] pattern. *)
Definition is_word `{UnicodeDB} (c : N) : bool := isalnum c || (c =? 95).

(** ** Regular expressions

    The fragment of [re] used by the scanner, with the backtracking
    semantics of the [re] module: the matches of a pattern at a position
    are listed in the order in which the engine tries them, so the head of
    the list is the match it reports. *)

Module Regex.

Inductive re :=
| Eps
| Chr (c : N → bool)
| Seq (r1 r2 : re)
| Alt (r1 r2 : re)
| Many (greedy : bool) (c : N → bool)
| Grp (r : re)
| WordB.

Record mstate := MState {
  m_prev : option N;
  m_rest : pystr;
  m_group : option pystr;
}.

Fixpoint many (greedy : bool) (c : N → bool) (prev : option N) (rest : pystr)
    (g : option pystr) : list mstate :=
  match rest with
  | x :: xs =>
    if c x then
      if greedy then many greedy c (Some x) xs g ++ [MState prev rest g]
      else MState prev rest g :: many greedy c (Some x) xs g
    else [MState prev rest g]
  | [] => [MState prev rest g]
  end.

Definition word_at `{UnicodeDB} (o : option N) : bool :=
  match o with Some c => is_word c | None => false end.

(** [\b]: exactly one of the two neighbouring code points is a word
    character; the ends of the string count as non-word. *)
Definition at_boundary `{UnicodeDB} (prev : option N) (rest : pystr) : bool :=
  xorb (word_at prev) (word_at (head rest)).

Definition consumed (before after : pystr) : pystr :=
  take (length before - length after)%nat before.

Fixpoint rmatch `{UnicodeDB} (r : re) (st : mstate) : list mstate :=
  match r with
  | Eps => [st]
  | Chr c =>
    match m_rest st with
    | x :: xs => if c x then [MState (Some x) xs (m_group st)] else []
    | [] => []
    end
  | Seq r1 r2 => rmatch r1 st ≫= rmatch r2
  | Alt r1 r2 => rmatch r1 st ++ rmatch r2 st
  | Many greedy c => many greedy c (m_prev st) (m_rest st) (m_group st)
  | Grp r1 =>
    (λ st', MState (m_prev st') (m_rest st')
              (Some (consumed (m_rest st) (m_rest st')))) <$> rmatch r1 st
  | WordB => if at_boundary (m_prev st) (m_rest st) then [st] else []
  end.

(** The match the engine reports when started at the current position. *)
Definition match_at `{UnicodeDB} (r : re) (prev : option N) (s : pystr)
    : option mstate :=
  head (rmatch r (MState prev s None)).

(** [pattern.search(s)]: the match at the leftmost position that has one. *)
Fixpoint search_from `{UnicodeDB} (r : re) (prev : option N) (s : pystr)
    : option mstate :=
  match match_at r prev s with
  | Some m => Some m
  | None =>
    match s with
    | x :: xs => search_from r (Some x) xs
    | [] => None
    end
  end.

Definition search `{UnicodeDB} (r : re) (s : pystr) : option mstate :=
  search_from r None s.

(** One match of [finditer]: its start offset and [match.group(1)]. *)
Record found := Found {
  f_start : nat;
  f_group : pystr;
}.

Definition group1 (m : mstate) : pystr := default [] (m_group m).

(** [pattern.finditer(s)]: non-overlapping matches from left to right.
    After a match the scan resumes where the match ended ([skip] counts
    the positions still covered by it); after an empty match it resumes
    one position further. *)
Fixpoint finditer_from `{UnicodeDB} (r : re) (prev : option N) (s : pystr)
    (pos skip : nat) : list found :=
  match skip with
  | S k =>
    match s with
    | x :: xs => finditer_from r (Some x) xs (S pos) k
    | [] => []
    end
  | O =>
    match match_at r prev s with
    | Some m =>
      Found pos (group1 m) ::
      match s with
      | x :: xs =>
        finditer_from r (Some x) xs (S pos)
          (pred (length s - length (m_rest m)))
      | [] => []
      end
    | None =>
      match s with
      | x :: xs => finditer_from r (Some x) xs (S pos) 0
      | [] => []
      end
    end
  end.

Definition finditer `{UnicodeDB} (r : re) (s : pystr) : list found :=
  finditer_from r None s 0 0.

(** *** Pattern syntax *)

Definition ch (p : N) : N → bool := N.eqb p.
Definition ch_not (p : N) : N → bool := λ c, negb (p =? c).
Definition dot_all : N → bool := λ _, true.

(** A literal letter under [re.IGNORECASE] in a [str] pattern: the simple
    lower-case mapping of the subject code point is compared with the
    lower-cased letter, and [i] and [s] have the extra equivalents U+0131
    and U+017F; U+0130 and U+212A lower-case to [i] and [k]. *)
Definition ch_i (p : N) : N → bool :=
  let lo := if (65 <=? p) && (p <=? 90) then p + 32 else p in
  if (97 <=? lo) && (lo <=? 122) then
    λ c, (c =? lo) || (c =? lo - 32)
         || ((lo =? 105) && ((c =? 304) || (c =? 305)))
         || ((lo =? 115) && (c =? 383))
         || ((lo =? 107) && (c =? 8490))
  else N.eqb p.

Fixpoint seq_of (l : list re) : re :=
  match l with
  | [] => Eps
  | r :: l' => Seq r (seq_of l')
  end.

(** [r|r1|...|rn] *)
Fixpoint alt_of (r : re) (l : list re) : re :=
  match l with
  | [] => r
  | r' :: l' => Alt r (alt_of r' l')
  end.

Definition lit (s : pystr) : re := seq_of (Chr ∘ ch <$> s).
Definition lit_i (s : pystr) : re := seq_of (Chr ∘ ch_i <$> s).
Definition star (c : N → bool) : re := Many true c.
Definition star_lazy (c : N → bool) : re := Many false c.
Definition plus (c : N → bool) : re := Seq (Chr c) (Many true c).
Definition opt (r : re) : re := Alt r Eps.

End Regex.
Export Regex.

(** ** scanner.py *)

Module Scanner.

(** Usage information detected from a single file. *)
Record FileUsage := mkFileUsage {
  commands : gset pystr;
  blocks : gset pystr;
  positional : bool;
  detected_languages : gset pystr;
}.

(** [FileUsage()] *)
Definition FileUsage_empty : FileUsage := mkFileUsage ∅ ∅ false ∅.

(** The truth value of a Python [set]. *)
Definition set_bool (s : gset pystr) : bool := bool_decide (s ≠ ∅).

(** [FileUsage.__bool__]:
    [bool(self.commands or self.blocks or self.positional)] *)
Definition FileUsage_bool (self : FileUsage) : bool :=
  if set_bool (commands self) then true
  else if set_bool (blocks self) then true
  else positional self.

(** [FileUsage.merge]; the updated [self] is returned. *)
Definition merge (self other : FileUsage) : FileUsage :=
  mkFileUsage
    (commands self ∪ commands other)
    (blocks self ∪ blocks other)
    (if positional other then true else positional self)
    (detected_languages self ∪ detected_languages other).

(** Aggregated usage information across all files. *)
Record AggregatedUsage := mkAggregatedUsage {
  agg_commands : gset pystr;
  agg_blocks : gset pystr;
  agg_positional : bool;
  agg_file_usage : gmap pystr FileUsage;
  agg_detected_languages : gset pystr;
}.

(** The dictionaries built by [to_dict] and [get_summary], one field per
    key. *)
Record usage_dict := mkUsageDict {
  d_commands : list pystr;
  d_blocks : list pystr;
  d_positional : bool;
  d_detected_languages : list pystr;
}.

Record summary_dict := mkSummaryDict {
  s_commands : list pystr;
  s_blocks : list pystr;
  s_positional : bool;
  s_file_count : nat;
  s_detected_languages : list pystr;
}.

(** [FileUsage.to_dict] *)
Definition FileUsage_to_dict (self : FileUsage) : usage_dict :=
  mkUsageDict (py_sorted (commands self)) (py_sorted (blocks self))
    (positional self) (py_sorted (detected_languages self)).

(** [AggregatedUsage.to_dict] *)
Definition AggregatedUsage_to_dict (self : AggregatedUsage) : summary_dict :=
  mkSummaryDict (py_sorted (agg_commands self)) (py_sorted (agg_blocks self))
    (agg_positional self) (size (agg_file_usage self))
    (py_sorted (agg_detected_languages self)).

#[export] Instance FileUsage_eq_dec : EqDecision FileUsage.
Proof. solve_decision. Defined.

#[export] Instance AggregatedUsage_eq_dec : EqDecision AggregatedUsage.
Proof. solve_decision. Defined.

Definition dq : N := 34.
Definition sq : N := 39.
Definition bq : N := 96.
Definition gt : N := 62.

(** The class of the two quote characters, single and double. *)
Definition quote : N → bool := λ c, (c =? sq) || (c =? dq).
Definition not_quote : N → bool := λ c, negb (quote c).

Definition HYPERSCRIPT_PATTERNS : list re := [
  (* l.84: the attribute _= in double quotes *)
  seq_of [lit (py "_="); Chr (ch dq); Grp (star (ch_not dq)); Chr (ch dq)];
  (* l.85: the attribute _= in single quotes *)
  seq_of [lit (py "_='"); Grp (star (ch_not sq)); lit (py "'")];
  (* l.86: the attribute _= in backticks *)
  seq_of [lit (py "_=`"); Grp (star (ch_not bq)); lit (py "`")];
  (* l.88: _= with a braced template literal, one code point or more *)
  seq_of [lit (py "_={`"); Grp (plus (ch_not bq)); lit (py "`}")];
  (* l.89: _= with a braced quoted string; either quote opens and closes *)
  seq_of [lit (py "_={"); Chr quote; Grp (plus not_quote); Chr quote;
          lit (py "}")];
  (* l.91: the attribute data-hs= in double quotes *)
  seq_of [lit (py "data-hs="); Chr (ch dq); Grp (star (ch_not dq));
          Chr (ch dq)];
  (* l.92: the attribute data-hs= in single quotes *)
  seq_of [lit (py "data-hs='"); Grp (star (ch_not sq)); lit (py "'")];
  (* l.94: the block tag hs ... endhs, lazy body, re.DOTALL *)
  seq_of [lit (py "{%"); star is_space; lit (py "hs"); star is_space;
          lit (py "%}"); Grp (star_lazy dot_all);
          lit (py "{%"); star is_space; lit (py "endhs"); star is_space;
          lit (py "%}")];
  (* l.96: the tag hs_attr with a double-quoted argument *)
  seq_of [lit (py "{%"); star is_space; lit (py "hs_attr"); plus is_space;
          Chr (ch dq); Grp (plus (ch_not dq)); Chr (ch dq); star is_space;
          lit (py "%}")];
  (* l.97: the tag hs_attr with a single-quoted argument *)
  seq_of [lit (py "{%"); star is_space; lit (py "hs_attr"); plus is_space;
          Chr (ch sq); Grp (plus (ch_not sq)); Chr (ch sq); star is_space;
          lit (py "%}")];
  (* l.98: the tag hs_script with a double-quoted argument *)
  seq_of [lit (py "{%"); star is_space; lit (py "hs_script"); plus is_space;
          Chr (ch dq); Grp (plus (ch_not dq)); Chr (ch dq); star is_space;
          lit (py "%}")];
  (* l.99: the tag hs_script with a single-quoted argument *)
  seq_of [lit (py "{%"); star is_space; lit (py "hs_script"); plus is_space;
          Chr (ch sq); Grp (plus (ch_not sq)); Chr (ch sq); star is_space;
          lit (py "%}")];
  (* l.101-104: the script tag of type text/hyperscript, lazy body,
     re.DOTALL | re.IGNORECASE *)
  seq_of [lit_i (py "<script"); star (ch_not gt); lit_i (py "type=");
          opt (Chr quote); lit_i (py "text/hyperscript"); opt (Chr quote);
          star (ch_not gt); lit_i (py ">"); Grp (star_lazy dot_all);
          lit_i (py "</script>")]
].

(** [\b(toggle|add|...|return)\b], re.IGNORECASE *)
Definition COMMAND_PATTERN : re :=
  seq_of [WordB;
          Grp (alt_of (lit_i (py "toggle")) (lit_i ∘ py <$> [
            "add"; "remove"; "removeClass"; "show"; "hide"; "set"; "get";
            "put"; "append"; "take"; "increment"; "decrement"; "log"; "send";
            "trigger"; "wait"; "transition"; "go"; "call"; "focus"; "blur";
            "return"]%string));
          WordB].

(** A keyword as a whole word, case-insensitively: [\bkw\b]. *)
Definition word_i (kw : string) : re :=
  seq_of [WordB; lit_i (py kw); WordB].

Definition BLOCK_PATTERNS `{UnicodeDB} : list (pystr * re) := [
  (py "if", word_i "if");
  (py "unless", word_i "unless");
  (* l.121-123: repeat, a count (digits, :name, $name or dotted name),
     then time or times *)
  (py "repeat",
   seq_of [WordB; lit_i (py "repeat"); plus is_space;
           Grp (alt_of (plus isdecimal)
                  [Seq (lit (py ":")) (plus is_word);
                   Seq (lit (py "$")) (plus is_word);
                   plus (λ c, is_word c || (c =? 46))]);
           plus is_space; lit_i (py "time"); opt (Chr (ch_i 115)); WordB]);
  (* l.124: for each, for every *)
  (py "for",
   seq_of [WordB; lit_i (py "for"); plus is_space;
           Grp (Alt (lit_i (py "each")) (lit_i (py "every"))); WordB]);
  (py "while", word_i "while");
  (py "fetch", word_i "fetch");
  (py "async", word_i "async")
].

(** [\b(first|last|next|previous|closest|parent)\b], re.IGNORECASE *)
Definition POSITIONAL_PATTERN : re :=
  seq_of [WordB;
          Grp (alt_of (lit_i (py "first")) (lit_i ∘ py <$> [
            "last"; "next"; "previous"; "closest"; "parent"]%string));
          WordB].

(** Valid commands for validation (lowercase). *)
Definition VALID_COMMANDS : gset pystr :=
  list_to_set (py <$> [
    "toggle"; "add"; "remove"; "removeclass"; "show"; "hide"; "set"; "get";
    "put"; "append"; "take"; "increment"; "decrement"; "log"; "send";
    "trigger"; "wait"; "transition"; "go"; "call"; "focus"; "blur";
    "return"]%string).

(** Valid blocks for validation. *)
Definition VALID_BLOCKS : gset pystr :=
  list_to_set (py <$> ["if"; "repeat"; "for"; "while"; "fetch"; "async"]%string).

Definition SUPPORTED_LANGUAGES : list pystr := py <$> [
  "en"; "es"; "pt"; "fr"; "de"; "it"; "vi";
  "pl"; "ru"; "uk";
  "ja"; "zh"; "ko";
  "ar";
  "hi"; "bn";
  "th";
  "tr";
  "id"; "sw"; "qu"; "tl"]%string.

Definition LANGUAGE_KEYWORDS : list (pystr * list pystr) := [
  (py "ja", py <$> [
     "トグル"; "切り替え"; "追加"; "削除"; "表示"; "隠す";
     "非表示"; "設定"; "セット"; "増加"; "減少"; "ログ";
     "出力"; "クリック"; "入力"; "変更"; "フォーカス"; "もし";
     "繰り返し"; "待つ"; "待機"; "私"; "それ"; "結果";
     "最初"; "最後"; "次"; "前"]);
  (py "ko", py <$> [
     "토글"; "전환"; "추가"; "제거"; "삭제"; "표시";
     "숨기다"; "설정"; "증가"; "감소"; "로그"; "클릭";
     "입력"; "변경"; "포커스"; "만약"; "반복"; "대기";
     "나"; "내"; "그것"; "결과"; "첫번째"; "마지막";
     "다음"; "이전"]);
  (py "zh", py <$> [
     "切换"; "添加"; "移除"; "删除"; "显示"; "隐藏";
     "设置"; "设定"; "增加"; "减少"; "日志"; "记录";
     "点击"; "输入"; "改变"; "聚焦"; "如果"; "重复";
     "等待"; "我"; "它"; "结果"; "第一"; "最后";
     "下一个"; "上一个"]);
  (py "ar", py <$> [
     "بدّل"; "بدل"; "أضف"; "اضف"; "أزل"; "ازل";
     "احذف"; "أظهر"; "اظهر"; "أخفِ"; "اخف"; "ضع";
     "اضع"; "زِد"; "أنقص"; "عند"; "نقر"; "إدخال";
     "تغيير"; "إذا"; "كرر"; "انتظر"; "أنا"; "هو";
     "النتيجة"]);
  (py "es", py <$> [
     "alternar"; "añadir"; "agregar"; "quitar"; "eliminar"; "mostrar";
     "ocultar"; "esconder"; "establecer"; "fijar"; "incrementar"; "decrementar";
     "clic"; "entrada"; "cambio"; "sino"; "repetir"; "esperar";
     "mientras"; "yo"; "ello"; "resultado"; "primero"; "último";
     "siguiente"; "anterior"]);
  (py "pt", py <$> [
     "adicionar"; "remover"; "esconder"; "definir"; "clique"; "mudança";
     "senão"; "aguardar"; "enquanto"; "eu"; "isso"; "próximo"]);
  (py "fr", py <$> [
     "basculer"; "ajouter"; "supprimer"; "retirer"; "afficher"; "montrer";
     "cacher"; "masquer"; "définir"; "incrémenter"; "décrémenter"; "cliquer";
     "saisie"; "changement"; "sinon"; "répéter"; "attendre"; "pendant";
     "moi"; "cela"; "résultat"; "premier"; "dernier"; "suivant";
     "précédent"]);
  (py "de", py <$> [
     "umschalten"; "hinzufügen"; "entfernen"; "löschen"; "anzeigen"; "zeigen";
     "verbergen"; "verstecken"; "setzen"; "festlegen"; "erhöhen"; "verringern";
     "klick"; "eingabe"; "änderung"; "wenn"; "sonst"; "wiederholen";
     "warten"; "während"; "ich"; "ergebnis"; "erste"; "letzte";
     "nächste"; "vorherige"]);
  (py "tr", py <$> [
     "değiştir"; "değistir"; "ekle"; "kaldır"; "kaldir"; "sil";
     "göster"; "gizle"; "sakla"; "ayarla"; "belirle"; "arttır";
     "azalt"; "tıklama"; "tiklama"; "giriş"; "giris"; "değişim";
     "degisim"; "eğer"; "eger"; "yoksa"; "tekrarla"; "bekle";
     "süresince"; "ben"; "sonuç"; "sonuc"; "ilk"; "son";
     "sonraki"; "önceki"; "onceki"]);
  (py "id", py <$> [
     "alih"; "beralih"; "tambah"; "hapus"; "buang"; "tampilkan";
     "sembunyikan"; "atur"; "tetapkan"; "tambahkan"; "kurangi"; "klik";
     "masukan"; "perubahan"; "jika"; "kalau"; "ulangi"; "tunggu";
     "selama"; "saya"; "itu"; "hasil"; "pertama"; "terakhir";
     "berikutnya"; "sebelumnya"]);
  (py "sw", py <$> [
     "badilisha"; "ongeza"; "ondoa"; "futa"; "onyesha"; "ficha";
     "weka"; "sanidi"; "ongezea"; "punguza"; "bofya"; "ingizo";
     "badiliko"; "ikiwa"; "kama"; "rudia"; "subiri"; "wakati";
     "mimi"; "hiyo"; "matokeo"; "kwanza"; "mwisho"; "inayofuata";
     "iliyotangulia"]);
  (py "qu", py <$> [
     "tikray"; "yapay"; "qichuy"; "pichay"; "rikuchiy"; "pakay";
     "churay"; "pisiyachiy"; "ñit'iy"; "yaykuchiy"; "sichus"; "mana";
     "kutipay"; "suyay"; "chaykama"; "ñuqa"; "chay"; "lluqsisqa";
     "ñawpaq"; "qhipa"; "hamuq"; "ñawpaqnin"]);
  (py "it", py <$> [
     "commutare"; "alternare"; "aggiungere"; "rimuovere"; "eliminare"; "mostrare";
     "nascondere"; "impostare"; "incrementare"; "decrementare"; "clic"; "ingresso";
     "cambiamento"; "altrimenti"; "ripetere"; "aspettare"; "attendere"; "mentre";
     "risultato"; "primo"; "ultimo"; "successivo"; "precedente"]);
  (py "vi", py <$> [
     "chuyển đổi"; "bật tắt"; "thêm"; "xóa"; "gỡ bỏ"; "hiển thị";
     "ẩn"; "gán"; "thiết lập"; "tăng"; "giảm"; "kích hoạt";
     "gửi"; "nếu"; "không thì"; "lặp lại"; "chờ"; "đợi";
     "trong khi"; "kết quả"; "đầu tiên"; "cuối cùng"; "tiếp theo"; "trước"]);
  (py "pl", py <$> [
     "przełącz"; "przelacz"; "dodaj"; "usuń"; "usun"; "pokaż";
     "pokaz"; "ukryj"; "ustaw"; "zwiększ"; "zwieksz"; "zmniejsz";
     "kliknięcie"; "klikniecie"; "wywołaj"; "wywolaj"; "wyślij"; "wyslij";
     "jeśli"; "jesli"; "jeżeli"; "jezeli"; "inaczej"; "powtórz";
     "powtorz"; "czekaj"; "poczekaj"; "dopóki"; "dopoki"; "wynik";
     "pierwszy"; "ostatni"; "następny"; "nastepny"; "poprzedni"]);
  (py "ru", py <$> [
     "переключить"; "добавить"; "удалить"; "убрать"; "показать"; "скрыть";
     "установить"; "увеличить"; "уменьшить"; "вызвать"; "отправить"; "если";
     "иначе"; "повторить"; "ждать"; "пока"; "результат"; "первый";
     "последний"; "следующий"; "предыдущий"]);
  (py "uk", py <$> [
     "перемкнути"; "додати"; "видалити"; "прибрати"; "показати"; "сховати";
     "приховати"; "встановити"; "збільшити"; "зменшити"; "викликати"; "надіслати";
     "якщо"; "інакше"; "повторити"; "чекати"; "поки"; "результат";
     "перший"; "останній"; "наступний"; "попередній"]);
  (py "hi", py <$> [
     "टॉगल"; "बदलें"; "जोड़ें"; "हटाएं"; "मिटाएं"; "दिखाएं";
     "छिपाएं"; "सेट"; "बढ़ाएं"; "घटाएं"; "ट्रिगर"; "भेजें";
     "अगर"; "यदि"; "वरना"; "दोहराएं"; "प्रतीक्षा"; "जब तक";
     "परिणाम"; "पहला"; "आखिरी"; "अगला"; "पिछला"]);
  (py "bn", py <$> [
     "টগল"; "পরিবর্তন"; "যোগ"; "সরান"; "মুছুন"; "দেখান";
     "লুকান"; "সেট"; "বৃদ্ধি"; "হ্রাস"; "ট্রিগার"; "পাঠান";
     "যদি"; "নতুবা"; "পুনরাবৃত্তি"; "অপেক্ষা"; "যতক্ষণ"; "ফলাফল";
     "প্রথম"; "শেষ"; "পরবর্তী"; "আগের"]);
  (py "th", py <$> [
     "สลับ"; "เพิ่ม"; "ลบ"; "ลบออก"; "แสดง"; "ซ่อน";
     "ตั้ง"; "กำหนด"; "เพิ่มค่า"; "ลดค่า"; "ทริกเกอร์"; "ส่ง";
     "ถ้า"; "หาก"; "ไม่งั้น"; "ทำซ้ำ"; "รอ"; "ในขณะที่";
     "ผลลัพธ์"; "แรก"; "สุดท้าย"; "ถัดไป"; "ก่อนหน้า"]);
  (py "tl", py <$> [
     "palitan"; "itoggle"; "idagdag"; "magdagdag"; "alisin"; "tanggalin";
     "ipakita"; "magpakita"; "itago"; "magtago"; "itakda"; "magtakda";
     "dagdagan"; "taasan"; "bawasan"; "ibaba"; "magpatugtog"; "ipadala";
     "magpadala"; "kung"; "kapag"; "kung_hindi"; "kundi"; "ulitin";
     "paulit-ulit"; "maghintay"; "hintay"; "habang"])
]%string.

(** Regional bundle mappings. *)
Definition REGIONS : gmap pystr (list pystr) := list_to_map [
  (py "western", py <$> ["en"; "es"; "pt"; "fr"; "de"; "it"]%string);
  (py "east-asian", py <$> ["ja"; "zh"; "ko"]%string);
  (py "southeast-asian", py <$> ["id"; "vi"; "th"; "tl"]%string);
  (py "south-asian", py <$> ["hi"; "bn"]%string);
  (py "slavic", py <$> ["pl"; "ru"; "uk"]%string);
  (py "priority", py <$> ["en"; "es"; "pt"; "fr"; "de"; "it"; "ja"; "zh";
                          "ko"; "ar"; "tr"; "id"; "vi"]%string);
  (py "all", SUPPORTED_LANGUAGES)
].

(** [REGIONS[name]]; every key the code looks up is present. *)
Definition region (name : string) : list pystr := REGIONS !!! py name.

Definition non_latin_langs : gset pystr :=
  list_to_set (py <$> ["ja"; "ko"; "zh"; "ar"; "ru"; "uk"; "hi"; "bn"; "th"]%string).

(** The truth value of a match object or [None]. *)
Definition matched (o : option mstate) : bool :=
  match o with Some _ => true | None => false end.

(** [re.compile(rf"\b{re.escape(keyword.lower())}\b")] *)
Definition keyword_pattern `{UnicodeDB} (keyword : pystr) : re :=
  seq_of [WordB; lit (lower keyword); WordB].

(** The inner loops of [detect_languages]: does some keyword of [lang]
    occur in the script? *)
Definition keyword_hit `{UnicodeDB} (script script_lower lang : pystr)
    (keywords : list pystr) : bool :=
  if bool_decide (lang ∈ non_latin_langs) then
    existsb (λ keyword, contains keyword script) keywords
  else
    existsb (λ keyword,
      if (length keyword <=? 2)%nat then false
      else matched (search (keyword_pattern keyword) script_lower)) keywords.

Definition detect_languages `{UnicodeDB} (script : pystr) : gset pystr :=
  let script_lower := lower script in
  foldl (λ detected '(lang, keywords),
           if keyword_hit script script_lower lang keywords
           then detected ∪ {[lang]} else detected)
        ∅ LANGUAGE_KEYWORDS.

(** [all(lang in REGIONS[name] for lang in lang_list)] *)
Definition all_in (name : string) (lang_list : list pystr) : bool :=
  forallb (λ lang, bool_decide (lang ∈ region name)) lang_list.

Definition get_optimal_region (languages : gset pystr) : option pystr :=
  if negb (set_bool languages) then None
  else
    let lang_list := elements languages in
    if all_in "east-asian" lang_list then Some (py "east-asian")
    else if all_in "south-asian" lang_list then Some (py "south-asian")
    else if all_in "slavic" lang_list then Some (py "slavic")
    else if all_in "southeast-asian" lang_list then Some (py "southeast-asian")
    else if all_in "western" lang_list then Some (py "western")
    else if all_in "priority" lang_list then Some (py "priority")
    else Some (py "all").

(** *** The interpreter and the file system *)

Inductive py_exception :=
| FileNotFoundError
| PermissionError
| IsADirectoryError
| UnicodeDecodeError
| OSError
| KeyboardInterrupt.

(** [isinstance(e, Exception)]: [KeyboardInterrupt] derives from
    [BaseException] only. *)
Definition is_Exception (e : py_exception) : bool :=
  match e with
  | KeyboardInterrupt => false
  | _ => true
  end.

Inductive outcome (A : Type) :=
| Returned (a : A)
| Raised (e : py_exception).
Arguments Returned {A} a.
Arguments Raised {A} e.

(** What [pathlib] answers about a path, named by its string.  Only
    [read_text] is given a way to raise: [exists], [is_file] and [rglob]
    are taken to answer, as they do on a tree the process may list. *)
Record FileSystem := {
  fs_exists : pystr → bool;
  fs_is_file : pystr → bool;
  fs_rglob : pystr → list pystr;
  fs_read_text : pystr → outcome pystr;
  fs_suffix : pystr → pystr;
}.

(** The lines the scanner prints when [debug] is set. *)
Inductive log_event :=
| LogScanned (file_path : pystr) (usage : FileUsage)
| LogReadError (path : pystr) (e : py_exception).

(** Computations that print and may raise. *)
Definition M (A : Type) : Type := list log_event → outcome A * list log_event.

Definition ret {A} (a : A) : M A := λ out, (Returned a, out).

Definition bind {A B} (m : M A) (k : A → M B) : M B :=
  λ out,
    match m out with
    | (Returned a, out') => k a out'
    | (Raised e, out') => (Raised e, out')
    end.

Notation "x ←← m ;; k" := (bind m (λ x, k))
  (at level 100, m at next level, right associativity).

(** [print] on a standard output that accepts the line.  What a stream
    raises when it cannot encode a line is not modelled, so what is
    stated of a scanner with [debug] set is stated of an output that
    accepts every line; with [debug] off the scanner never prints. *)
Definition print (ev : log_event) : M () := λ out, (Returned (), out ++ [ev]).

Definition raise {A} (e : py_exception) : M A := λ out, (Raised e, out).

(** [try: body except Exception as e: handler(e)] *)
Definition try_except {A} (body : M A) (handler : py_exception → M A) : M A :=
  λ out,
    match body out with
    | (Returned a, out') => (Returned a, out')
    | (Raised e, out') =>
      if is_Exception e then handler e out' else (Raised e, out')
    end.

Definition lift {A} (o : outcome A) : M A := λ out, (o, out).

Fixpoint for_each {A S} (l : list A) (body : S → A → M S) (s : S) : M S :=
  match l with
  | [] => ret s
  | a :: l' => s' ←← body s a;; for_each l' body s'
  end.

(** Run a computation on an empty output. *)
Definition run {A} (m : M A) : outcome A * list log_event := m [].

(** *** class Scanner *)

Record Scanner := mkScanner {
  include_extensions : gset pystr;
  exclude_patterns : list pystr;
  debug : bool;
}.

(** [Scanner.__init__]; [None] and an empty collection select the
    default through [or]. *)
Definition Scanner_init (include_extensions : option (gset pystr))
    (exclude_patterns : option (list pystr)) (debug : bool) : Scanner :=
  mkScanner
    (match include_extensions with
     | Some s => if set_bool s then s else
         list_to_set (py <$> [".html"; ".htm"; ".txt"; ".xml"; ".jinja";
                              ".jinja2"]%string)
     | None =>
         list_to_set (py <$> [".html"; ".htm"; ".txt"; ".xml"; ".jinja";
                              ".jinja2"]%string)
     end)
    (match exclude_patterns with
     | Some (p :: l) => p :: l
     | _ => py <$> ["__pycache__"; ".git"; "node_modules"; ".venv"; "venv";
                    "site-packages"]%string
     end)
    debug.

Definition should_scan `{UnicodeDB} (self : Scanner) (fs : FileSystem)
    (path : pystr) : bool :=
  if negb (bool_decide (lower (fs_suffix fs path) ∈ include_extensions self))
  then false
  else negb (existsb (λ pattern, contains pattern path) (exclude_patterns self)).

(** The scripts one pattern contributes, in match order. *)
Definition scripts_of `{UnicodeDB} (pattern : re) (content : pystr)
    : list pystr :=
  filter (λ script, script ≠ [])
         ((λ m, strip (f_group m)) <$> finditer pattern content).

Definition extract_hyperscript `{UnicodeDB} (content : pystr) : list pystr :=
  HYPERSCRIPT_PATTERNS ≫= (λ pattern, scripts_of pattern content).

Definition analyze_script `{UnicodeDB} (script : pystr) : FileUsage :=
  let commands : gset pystr :=
    list_to_set ((λ m, lower (f_group m)) <$> finditer COMMAND_PATTERN script) in
  let blocks : gset pystr :=
    foldl (λ bs '(block_name, pattern),
             if matched (search pattern script) then
               if bool_decide (block_name = py "unless")
               then bs ∪ {[py "if"]} else bs ∪ {[block_name]}
             else bs)
          ∅ BLOCK_PATTERNS in
  let positional := matched (search POSITIONAL_PATTERN script) in
  mkFileUsage commands blocks positional (detect_languages script).

Definition scan_content `{UnicodeDB} (self : Scanner) (content file_path : pystr)
    : M FileUsage :=
  let usage :=
    foldl (λ usage script, merge usage (analyze_script script))
          FileUsage_empty (extract_hyperscript content) in
  if debug self && FileUsage_bool usage
  then _ ←← print (LogScanned file_path usage);; ret usage
  else ret usage.

Definition scan_file `{UnicodeDB} (self : Scanner) (fs : FileSystem)
    (path : pystr) : M FileUsage :=
  try_except
    (content ←← lift (fs_read_text fs path);;
     scan_content self content path)
    (λ e,
       if debug self
       then _ ←← print (LogReadError path e);; ret FileUsage_empty
       else ret FileUsage_empty).

Definition scan_directory `{UnicodeDB} (self : Scanner) (fs : FileSystem)
    (directory : pystr) : M (gmap pystr FileUsage) :=
  if negb (fs_exists fs directory) then ret ∅
  else
    for_each (fs_rglob fs directory)
      (λ results path,
         if fs_is_file fs path && should_scan self fs path then
           usage ←← scan_file self fs path;;
           ret (if FileUsage_bool usage then <[path := usage]> results
                else results)
         else ret results)
      ∅.

Definition scan_directories `{UnicodeDB} (self : Scanner) (fs : FileSystem)
    (directories : list pystr) : M (gmap pystr FileUsage) :=
  for_each directories
    (λ results directory,
       dir_results ←← scan_directory self fs directory;;
       ret (dir_results ∪ results))
    ∅.

End Scanner.
Export Scanner.

(** ** aggregator.py *)

Module Aggregator.

Record Aggregator := mkAggregator {
  _file_usage : gmap pystr FileUsage;
  _cached_usage : option AggregatedUsage;
}.

(** [Aggregator.__init__] *)
Definition init : Aggregator := mkAggregator ∅ None.

(** The truth value of [self._file_usage.get(file_path)]: [None] is
    false, and a [FileUsage] answers through [__bool__]. *)
Definition existing_bool (existing : option FileUsage) : bool :=
  match existing with
  | Some u => FileUsage_bool u
  | None => false
  end.

Definition add (self : Aggregator) (file_path : pystr) (usage : FileUsage)
    : bool * Aggregator :=
  let existing := _file_usage self !! file_path in
  match existing with
  | Some e =>
    if FileUsage_bool e
       && (bool_decide (commands e = commands usage)
           && bool_decide (blocks e = blocks usage)
           && bool_decide (positional e = positional usage))
    then (false, self)
    else (true, mkAggregator (<[file_path := usage]> (_file_usage self)) None)
  | None =>
    (true, mkAggregator (<[file_path := usage]> (_file_usage self)) None)
  end.

Definition remove (self : Aggregator) (file_path : pystr) : bool * Aggregator :=
  if bool_decide (file_path ∈ dom (_file_usage self))
  then (true, mkAggregator (delete file_path (_file_usage self)) None)
  else (false, self).

(** The loop of [get_usage] over [self._file_usage.values()] and the
    snapshot built from its result. *)
Definition aggregate (file_usage : gmap pystr FileUsage) : AggregatedUsage :=
  let '(commands, blocks, positional, detected_languages) :=
    map_fold (λ _ usage '(commands, blocks, positional, detected_languages),
                (commands ∪ Scanner.commands usage,
                 blocks ∪ Scanner.blocks usage,
                 if Scanner.positional usage then true else positional,
                 detected_languages ∪ Scanner.detected_languages usage))
             (∅, ∅, false, ∅) file_usage in
  mkAggregatedUsage commands blocks positional file_usage detected_languages.

Definition get_usage (self : Aggregator) : AggregatedUsage * Aggregator :=
  match _cached_usage self with
  | Some cached => (cached, self)
  | None =>
    let usage := aggregate (_file_usage self) in
    (usage, mkAggregator (_file_usage self) (Some usage))
  end.

Definition load_from_scan (self : Aggregator)
    (scanned_files : gmap pystr FileUsage) : Aggregator :=
  mkAggregator scanned_files None.

Definition has_usage (self : Aggregator) : bool * Aggregator :=
  let '(usage, self') := get_usage self in
  (if set_bool (agg_commands usage) then true
   else if set_bool (agg_blocks usage) then true
   else agg_positional usage, self').

Definition get_summary (self : Aggregator) : summary_dict * Aggregator :=
  let '(usage, self') := get_usage self in
  (mkSummaryDict (py_sorted (agg_commands usage))
     (py_sorted (agg_blocks usage)) (agg_positional usage)
     (size (_file_usage self'))
     (py_sorted (agg_detected_languages usage)), self').

Definition clear (self : Aggregator) : Aggregator := mkAggregator ∅ None.

Definition get_files (self : Aggregator) : list pystr :=
  py_sorted (dom (_file_usage self)).

Definition get_file_count (self : Aggregator) : nat := size (_file_usage self).

End Aggregator.

(** ** A Unicode database for running examples

    [basic_db] agrees with the interpreter on U+0000..U+007F and treats
    every other code point as caseless and non-alphanumeric. *)

Definition ascii_isalnum (c : N) : bool :=
  ((48 <=? c) && (c <=? 57)) || ((65 <=? c) && (c <=? 90))
  || ((97 <=? c) && (c <=? 122)).

Definition ascii_isdecimal (c : N) : bool := (48 <=? c) && (c <=? 57).

Definition ascii_lower (s : pystr) : pystr :=
  (λ c, if (65 <=? c) && (c <=? 90) then c + 32 else c) <$> s.

#[export] Instance basic_db : UnicodeDB := {|
  isalnum := ascii_isalnum;
  isdecimal := ascii_isdecimal;
  lower := ascii_lower;
|}.

(** ** Notions used to state the properties *)

Import Aggregator.

(** The language codes of the region a selection names; no region, no
    codes. *)
Definition region_codes (selected : option pystr) : gset pystr :=
  match selected with
  | Some name => list_to_set (REGIONS !!! name)
  | None => ∅
  end.

(** The language codes of a region, as a set. *)
Definition rset (name : string) : gset pystr := list_to_set (region name).

(** The literal order in which the named regions are tried. *)
Definition regions_in_order : list string :=
  ["east-asian"; "south-asian"; "slavic"; "southeast-asian"; "western";
   "priority"]%string.

(** Region selection as the specification words it: nothing for the empty
    set, else the first region in the literal order that is a superset of
    the languages, else the catch-all region. *)
Definition select_region_spec (languages : gset pystr) : option pystr :=
  if decide (languages = ∅) then None
  else
    Some (match find (λ name, bool_decide (languages ⊆ list_to_set (region name)))
                     regions_in_order with
          | Some name => py name
          | None => py "all"
          end).

(** What recomputation from a file table yields, field by field: the
    unions of the commands, of the blocks and of the detected languages,
    the disjunction of the positional flags, and the table itself. *)
Definition recomputed (table : gmap pystr FileUsage) (usage : AggregatedUsage)
    : Prop :=
  (∀ c, c ∈ agg_commands usage
        ↔ ∃ path f, table !! path = Some f ∧ c ∈ commands f)
  ∧ (∀ b, b ∈ agg_blocks usage
          ↔ ∃ path f, table !! path = Some f ∧ b ∈ blocks f)
  ∧ (agg_positional usage = true
     ↔ ∃ path f, table !! path = Some f ∧ positional f = true)
  ∧ (∀ l, l ∈ agg_detected_languages usage
          ↔ ∃ path f, table !! path = Some f ∧ l ∈ detected_languages f)
  ∧ agg_file_usage usage = table.

(** The cache, when present, is what [get_usage] would compute from the
    file table. *)
Definition cache_consistent (self : Aggregator) : Prop :=
  match _cached_usage self with
  | Some cached => cached = aggregate (_file_usage self)
  | None => True
  end.

(** One script found in a content: the index of its pattern in
    [HYPERSCRIPT_PATTERNS], the offset at which the match starts, and the
    trimmed script. *)
Record occurrence := Occurrence {
  o_pattern : nat;
  o_start : nat;
  o_script : pystr;
}.

Definition occurrences_of `{UnicodeDB} (i : nat) (pattern : re)
    (content : pystr) : list occurrence :=
  filter (λ o, o_script o ≠ [])
         ((λ m, Occurrence i (f_start m) (strip (f_group m)))
            <$> finditer pattern content).

Fixpoint occurrences_from `{UnicodeDB} (i : nat) (patterns : list re)
    (content : pystr) : list occurrence :=
  match patterns with
  | [] => []
  | pattern :: patterns' =>
    occurrences_of i pattern content
      ++ occurrences_from (S i) patterns' content
  end.

(** Every match of every pattern that leaves a script after trimming,
    pattern by pattern. *)
Definition occurrences `{UnicodeDB} (content : pystr) : list occurrence :=
  occurrences_from 0 HYPERSCRIPT_PATTERNS content.

(** The order of the extracted scripts: by pattern, then by offset. *)
Definition occurs_before (a b : occurrence) : Prop :=
  (o_pattern a < o_pattern b
   ∨ (o_pattern a = o_pattern b ∧ o_start a < o_start b))%nat.

(** A script with something left and no white space at either end. *)
Definition trimmed (s : pystr) : Prop :=
  s ≠ []
  ∧ (∀ c, head s = Some c → is_space c = false)
  ∧ (∀ c, last s = Some c → is_space c = false).

(** Stable insertion by start offset. *)
Fixpoint insert_by_start (o : occurrence) (l : list occurrence)
    : list occurrence :=
  match l with
  | [] => [o]
  | o' :: l' =>
    if (o_start o' <? o_start o)%nat then o' :: insert_by_start o l'
    else o :: l
  end.

(** Extraction as the specification words it: the scripts in the order in
    which their matches occur in the content. *)
Definition extract_in_content_order `{UnicodeDB} (content : pystr)
    : list pystr :=
  o_script <$> foldr insert_by_start [] (occurrences content).

(** The code point before the position reached after [pre], when the one
    before [pre] was [prev]. *)
Definition last_of (prev : option N) (pre : pystr) : option N :=
  match last pre with
  | Some c => Some c
  | None => prev
  end.

(** Between [before] and [after] exactly one neighbour is a word
    character. *)
Definition word_boundary `{UnicodeDB} (before after : pystr) : Prop :=
  word_at (last before) ≠ word_at (head after).

(** [kw] occurs in [s] as a whole word: between two word boundaries. *)
Definition occurs_as_word `{UnicodeDB} (kw s : pystr) : Prop :=
  ∃ pre post, s = pre ++ kw ++ post
              ∧ word_boundary pre (kw ++ post)
              ∧ word_boundary (pre ++ kw) post.

(** [w] spells [name] up to letter case, as [re.IGNORECASE] compares
    code points. *)
Definition spells (name w : pystr) : Prop :=
  Forall2 (λ p x, ch_i p x = true) name w.

(** [name] occurs in [s] as a whole word, in some letter case. *)
Definition occurs_as_word_i `{UnicodeDB} (name s : pystr) : Prop :=
  ∃ w, spells name w ∧ occurs_as_word w s.

(** [kw] occurs in [s] as a substring. *)
Definition occurs_in (kw s : pystr) : Prop :=
  ∃ pre post, s = pre ++ kw ++ post.

(** The usage [scan_file] answers for a path, apart from what it
    prints. *)
Definition file_usage_of `{UnicodeDB} (self : Scanner) (fs : FileSystem)
    (path : pystr) : outcome FileUsage :=
  (run (scan_file self fs path)).1.

(** The part of [s] after its last [sep], when [sep] occurs in it. *)
Fixpoint after_last (sep : N) (s : pystr) : option pystr :=
  match s with
  | [] => None
  | c :: r =>
    match after_last sep r with
    | Some t => Some t
    | None => if c =? sep then Some r else None
    end
  end.

(** The final component of a POSIX path string. *)
Definition path_name (path : pystr) : pystr :=
  default path (after_last 47 path).

(** The suffix [pathlib] gives a path: the last dot of the final
    component with what follows it, unless that dot starts or ends the
    component. *)
Definition path_suffix (path : pystr) : pystr :=
  let name := path_name path in
  match after_last 46 name with
  | Some ext =>
    if (0 <? length ext)%nat && (S (length ext) <? length name)%nat
    then 46 :: ext else []
  | None => []
  end.

(** A file system for running examples: a directory [t] with a template
    whose only script is Japanese, a template with an English command,
    and a template that cannot be read. *)
Definition demo_files : list pystr :=
  py <$> ["t/ja.html"; "t/en.html"; "t/locked.html"]%string.

Definition demo_fs : FileSystem := {|
  fs_exists path := bool_decide (path = py "t" ∨ path ∈ demo_files);
  fs_is_file path := bool_decide (path ∈ demo_files);
  fs_rglob path := if bool_decide (path = py "t") then demo_files else [];
  fs_read_text path :=
    if bool_decide (path = py "t/ja.html")
    then Returned (py "<button _='トグル .active'>x</button>")
    else if bool_decide (path = py "t/en.html")
    then Returned (py "<button _='on click toggle .active'>x</button>")
    else if bool_decide (path = py "t/locked.html")
    then Raised PermissionError
    else Raised FileNotFoundError;
  fs_suffix := path_suffix;
|}.

(** The states an aggregator goes through: the fresh one and what any
    method makes of a state already reached. *)
Inductive reachable : Aggregator → Prop :=
| reach_init : reachable init
| reach_add self path usage :
    reachable self → reachable (add self path usage).2
| reach_remove self path :
    reachable self → reachable (remove self path).2
| reach_get_usage self :
    reachable self → reachable (get_usage self).2
| reach_load_from_scan self scanned_files :
    reachable self → reachable (load_from_scan self scanned_files)
| reach_has_usage self :
    reachable self → reachable (has_usage self).2
| reach_get_summary self :
    reachable self → reachable (get_summary self).2
| reach_clear self :
    reachable self → reachable (clear self).

(** The usage [scan_content] answers for a content: the merge of the
    usages of its scripts. *)
Definition content_usage `{UnicodeDB} (content : pystr) : FileUsage :=
  foldl (λ usage script, merge usage (analyze_script script))
        FileUsage_empty (extract_hyperscript content).

(** * Properties *)

(** Closed decidable facts are settled by evaluation. *)
Ltac by_computation :=
  match goal with
  | |- ?P => apply (bool_decide_unpack P); vm_compute; exact I
  end.

(** ** Regions *)

Section Regions.

Lemma all_in_subseteq (name : string) (languages : gset pystr) :
  all_in name (elements languages)
  = bool_decide (languages ⊆ list_to_set (region name)).
Proof.
  unfold all_in. apply eq_true_iff_eq.
  rewrite forallb_forall, bool_decide_eq_true. split.
  - intros E x Hx. apply elem_of_list_to_set.
    apply elem_of_elements, list_elem_of_In, E in Hx.
    by apply bool_decide_eq_true in Hx.
  - intros Hsub x Hx%list_elem_of_In%elem_of_elements.
    apply bool_decide_eq_true.
    apply Hsub in Hx. by apply elem_of_list_to_set in Hx.
Qed.

Lemma set_bool_empty (s : gset pystr) : set_bool s = false ↔ s = ∅.
Proof.
  unfold set_bool. rewrite bool_decide_eq_false. split.
  - intros H. by destruct (decide (s = ∅)).
  - intros -> H. by apply H.
Qed.

Lemma get_optimal_region_select (languages : gset pystr) :
  get_optimal_region languages = select_region_spec languages.
Proof.
  unfold get_optimal_region, select_region_spec.
  destruct (decide (languages = ∅)) as [->|Hne].
  - reflexivity.
  - assert (set_bool languages = true) as ->.
    { apply not_false_iff_true. by rewrite set_bool_empty. }
    cbn [negb].
    rewrite !all_in_subseteq.
    unfold regions_in_order. cbn [find].
    repeat case_bool_decide; reflexivity.
Qed.

(** C4: [get_optimal_region] answers [None] on the empty set, and on every
    other set the first region of east-asian, south-asian, slavic,
    southeast-asian, western, priority whose codes include every language,
    or the region all when none does. *)
Theorem get_optimal_region_first_superset :
  get_optimal_region ∅ = None
  ∧ ∀ languages : gset pystr,
      get_optimal_region languages = select_region_spec languages.
Proof. split; [reflexivity | apply get_optimal_region_select]. Qed.

Lemma small_regions_disjoint :
  rset "east-asian" ## rset "south-asian" ∧ rset "east-asian" ## rset "slavic"
  ∧ rset "east-asian" ## rset "southeast-asian"
  ∧ rset "east-asian" ## rset "western"
  ∧ rset "south-asian" ## rset "slavic"
  ∧ rset "south-asian" ## rset "southeast-asian"
  ∧ rset "south-asian" ## rset "western"
  ∧ rset "slavic" ## rset "southeast-asian" ∧ rset "slavic" ## rset "western"
  ∧ rset "southeast-asian" ## rset "western".
Proof. repeat apply conj; by_computation. Qed.

Lemma priority_relations :
  rset "east-asian" ⊆ rset "priority" ∧ rset "western" ⊆ rset "priority"
  ∧ rset "south-asian" ## rset "priority" ∧ rset "slavic" ## rset "priority".
Proof. repeat apply conj; by_computation. Qed.

Lemma all_includes_every_region :
  rset "east-asian" ⊆ rset "all" ∧ rset "south-asian" ⊆ rset "all"
  ∧ rset "slavic" ⊆ rset "all" ∧ rset "southeast-asian" ⊆ rset "all"
  ∧ rset "western" ⊆ rset "all" ∧ rset "priority" ⊆ rset "all".
Proof. repeat apply conj; by_computation. Qed.

Lemma southeast_priority_overlap :
  rset "southeast-asian" ∩ rset "priority" ⊆ {[py "id"; py "vi"]}.
Proof. by_computation. Qed.

Lemma region_codes_named (name : string) :
  region_codes (Some (py name)) = rset name.
Proof. reflexivity. Qed.

(** C3, as stated, fails: Indonesian alone selects southeast-asian, whose
    codes th and tl are missing from priority, the region selected once
    Spanish is joined. *)
Lemma region_selection_not_monotone :
  let S1 : gset pystr := {[py "id"]} in
  let S2 : gset pystr := {[py "es"]} in
  S1 ≠ ∅
  ∧ get_optimal_region S1 = Some (py "southeast-asian")
  ∧ get_optimal_region (S1 ∪ S2) = Some (py "priority")
  ∧ ¬ (region_codes (get_optimal_region S1)
       ⊆ region_codes (get_optimal_region (S1 ∪ S2))).
Proof. cbv zeta. repeat apply conj; by_computation. Qed.

Lemma subseteq_union_left (S1 S2 X : gset pystr) : S1 ∪ S2 ⊆ X → S1 ⊆ X.
Proof. set_solver. Qed.

Lemma nonempty_in_disjoint (S X Y : gset pystr) :
  S ≠ ∅ → S ⊆ X → S ⊆ Y → X ## Y → False.
Proof. set_solver. Qed.

Lemma subseteq_overlap (S X Y Z : gset pystr) :
  S ⊆ X → S ⊆ Y → X ∩ Y ⊆ Z → S ⊆ Z.
Proof. set_solver. Qed.

(** One case of the comparison of the regions selected for [S1] and for
    [S1 ∪ S2]: the two regions are related by a known inclusion, or the
    case is impossible. *)
Ltac region_case S1 S2 :=
  let sub X H := constr:(subseteq_union_left S1 S2 X H) in
  first
  [ left; reflexivity
  | left; assumption
  | exfalso;
    match goal with
    | HT : S1 ∪ S2 ⊆ ?X, HS : ¬ S1 ⊆ ?X |- _ =>
        exact (HS (subseteq_union_left S1 S2 X HT))
    | HT : S1 ∪ S2 ⊆ ?X, HS : S1 ⊆ ?Y, D : ?X ## ?Y, Hne : S1 ≠ ∅ |- _ =>
        exact (nonempty_in_disjoint S1 X Y Hne
                 (subseteq_union_left S1 S2 X HT) HS D)
    | HT : S1 ∪ S2 ⊆ ?X, HS : S1 ⊆ ?Y, D : ?Y ## ?X, Hne : S1 ≠ ∅ |- _ =>
        exact (nonempty_in_disjoint S1 Y X Hne HS
                 (subseteq_union_left S1 S2 X HT) D)
    end
  | right; split_and!; [reflexivity | reflexivity |];
    match goal with
    | HT : S1 ∪ S2 ⊆ ?X, HS : S1 ⊆ ?Y, O : ?Y ∩ ?X ⊆ _ |- _ =>
        exact (subseteq_overlap S1 Y X _ HS
                 (subseteq_union_left S1 S2 X HT) O)
    end ].

(** C3, amended: the codes of the region selected for a non-empty [S1]
    are among the codes of the region selected for [S1 ∪ S2], except when
    [S1] selects southeast-asian and [S1 ∪ S2] selects priority, which
    happens only for [S1] within id and vi. *)
Theorem region_selection_monotone_but_southeast (S1 S2 : gset pystr) :
  S1 ≠ ∅ →
  region_codes (get_optimal_region S1)
    ⊆ region_codes (get_optimal_region (S1 ∪ S2))
  ∨ (get_optimal_region S1 = Some (py "southeast-asian")
     ∧ get_optimal_region (S1 ∪ S2) = Some (py "priority")
     ∧ S1 ⊆ {[py "id"; py "vi"]}).
Proof.
  intros Hne.
  assert (S1 ∪ S2 ≠ ∅) as Hne' by set_solver.
  rewrite !get_optimal_region_select. unfold select_region_spec.
  destruct (decide (S1 = ∅)) as [|_]; [done|].
  destruct (decide (S1 ∪ S2 = ∅)) as [|_]; [done|].
  unfold regions_in_order. cbn [find]. fold (rset "east-asian")
    (rset "south-asian") (rset "slavic") (rset "southeast-asian")
    (rset "western") (rset "priority").
  pose proof small_regions_disjoint as (?&?&?&?&?&?&?&?&?&?).
  pose proof priority_relations as (?&?&?&?).
  pose proof all_includes_every_region as (?&?&?&?&?&?).
  pose proof southeast_priority_overlap.
  pose proof (region_codes_named "east-asian") as E1.
  pose proof (region_codes_named "south-asian") as E2.
  pose proof (region_codes_named "slavic") as E3.
  pose proof (region_codes_named "southeast-asian") as E4.
  pose proof (region_codes_named "western") as E5.
  pose proof (region_codes_named "priority") as E6.
  pose proof (region_codes_named "all") as E7.
  set (ea := rset "east-asian") in *; clearbody ea.
  set (sa := rset "south-asian") in *; clearbody sa.
  set (sl := rset "slavic") in *; clearbody sl.
  set (sea := rset "southeast-asian") in *; clearbody sea.
  set (we := rset "western") in *; clearbody we.
  set (pri := rset "priority") in *; clearbody pri.
  set (al := rset "all") in *; clearbody al.
  destruct (bool_decide (S1 ∪ S2 ⊆ ea)) eqn:T1;
    [|destruct (bool_decide (S1 ∪ S2 ⊆ sa)) eqn:T2;
      [|destruct (bool_decide (S1 ∪ S2 ⊆ sl)) eqn:T3;
        [|destruct (bool_decide (S1 ∪ S2 ⊆ sea)) eqn:T4;
          [|destruct (bool_decide (S1 ∪ S2 ⊆ we)) eqn:T5;
            [|destruct (bool_decide (S1 ∪ S2 ⊆ pri)) eqn:T6]]]]];
  (destruct (bool_decide (S1 ⊆ ea)) eqn:U1;
    [|destruct (bool_decide (S1 ⊆ sa)) eqn:U2;
      [|destruct (bool_decide (S1 ⊆ sl)) eqn:U3;
        [|destruct (bool_decide (S1 ⊆ sea)) eqn:U4;
          [|destruct (bool_decide (S1 ⊆ we)) eqn:U5;
            [|destruct (bool_decide (S1 ⊆ pri)) eqn:U6]]]]]);
  rewrite ?bool_decide_eq_true, ?bool_decide_eq_false in *;
  rewrite ?E1, ?E2, ?E3, ?E4, ?E5, ?E6, ?E7;
  region_case S1 S2.
Qed.

Lemma region_selection_monotone_but_southeast_witness :
  ({[py "ja"]} : gset pystr) ≠ ∅
  ∧ (region_codes (get_optimal_region {[py "ja"]})
       ⊆ region_codes (get_optimal_region ({[py "ja"]} ∪ {[py "es"]}))
     ∨ (get_optimal_region {[py "ja"]} = Some (py "southeast-asian")
        ∧ get_optimal_region ({[py "ja"]} ∪ {[py "es"]}) = Some (py "priority")
        ∧ ({[py "ja"]} : gset pystr) ⊆ {[py "id"; py "vi"]})).
Proof.
  split; [by_computation|].
  apply (region_selection_monotone_but_southeast {[py "ja"]} {[py "es"]}).
  by_computation.
Defined.

End Regions.

(** ** FileUsage *)

(** C1, as stated, fails: a [FileUsage] whose only populated field is
    [detected_languages] is falsy. *)
Lemma FileUsage_languages_only_is_falsy :
  let u := mkFileUsage ∅ ∅ false {[py "ja"]} in
  FileUsage_bool u = false ∧ detected_languages u ≠ ∅.
Proof. cbv zeta. split; by_computation. Qed.

Lemma FileUsage_bool_false_iff (u : FileUsage) :
  FileUsage_bool u = false
  ↔ commands u = ∅ ∧ blocks u = ∅ ∧ positional u = false.
Proof.
  unfold FileUsage_bool.
  destruct (set_bool (commands u)) eqn:Ec;
    [|destruct (set_bool (blocks u)) eqn:Eb].
  - split; [done|]. intros (Hc&_&_).
    apply set_bool_empty in Hc. congruence.
  - split; [done|]. intros (_&Hb&_).
    apply set_bool_empty in Hb. congruence.
  - apply set_bool_empty in Ec, Eb. tauto.
Qed.

(** C1, amended: a [FileUsage] is falsy exactly when its commands and its
    blocks are empty and [positional] is false, whatever its detected
    languages. *)
Theorem FileUsage_falsy_iff (u : FileUsage) :
  (FileUsage_bool u = false
   ↔ commands u = ∅ ∧ blocks u = ∅ ∧ positional u = false)
  ∧ FileUsage_bool u
    = FileUsage_bool (mkFileUsage (commands u) (blocks u) (positional u) ∅).
Proof. split; [apply FileUsage_bool_false_iff | reflexivity]. Qed.

Lemma FileUsage_truthy_iff (u : FileUsage) :
  FileUsage_bool u = true
  ↔ commands u ≠ ∅ ∨ blocks u ≠ ∅ ∨ positional u = true.
Proof.
  rewrite <- not_false_iff_true, FileUsage_bool_false_iff.
  destruct (decide (commands u = ∅)), (decide (blocks u = ∅)),
    (positional u); naive_solver.
Qed.

(** ** Aggregator *)

Section AggregatorProperties.

Implicit Types (self : Aggregator) (table : gmap pystr FileUsage).
Implicit Types (path : pystr) (usage : FileUsage).

(** A property holds of some entry of a table extended at a fresh path
    if it holds of an old entry or of the new one. *)
Lemma exists_entry_insert table path usage (Q : FileUsage → Prop) :
  table !! path = None →
  (∃ p f, <[path := usage]> table !! p = Some f ∧ Q f)
  ↔ (∃ p f, table !! p = Some f ∧ Q f) ∨ Q usage.
Proof.
  intros Hfresh. split.
  - intros (p & f & Hp & HQ). destruct (decide (path = p)) as [->|Hne].
    + rewrite lookup_insert_eq in Hp. right. congruence.
    + rewrite lookup_insert_ne in Hp by done. left. eauto.
  - intros [(p & f & Hp & HQ) | HQ].
    + exists p, f. split; [|done].
      rewrite lookup_insert_ne; [done|]. intros ->. congruence.
    + exists path, usage. by rewrite lookup_insert_eq.
Qed.

Lemma no_entry_empty (Q : FileUsage → Prop) :
  ¬ ∃ p f, (∅ : gmap pystr FileUsage) !! p = Some f ∧ Q f.
Proof. intros (p & f & Hp & _). by rewrite lookup_empty in Hp. Qed.

(** The loop of [get_usage] computes the unions and the disjunction. *)
Lemma aggregate_recomputed table : recomputed table (aggregate table).
Proof.
  unfold aggregate, recomputed.
  match goal with
  | |- context [map_fold ?step ?start table] =>
      pose proof (map_fold_weak_ind
        (λ acc m,
           (∀ c, c ∈ acc.1.1.1 ↔ ∃ p u, m !! p = Some u ∧ c ∈ commands u)
           ∧ (∀ b, b ∈ acc.1.1.2 ↔ ∃ p u, m !! p = Some u ∧ b ∈ blocks u)
           ∧ (acc.1.2 = true ↔ ∃ p u, m !! p = Some u ∧ positional u = true)
           ∧ (∀ l, l ∈ acc.2
                   ↔ ∃ p u, m !! p = Some u ∧ l ∈ detected_languages u))
        step start) as Hind
  end.
  cbn beta in Hind.
  match type of Hind with
  | ?A → ?B → _ => assert A as HA; [|assert B as HB]
  end.
  - cbn. split_and!; intros;
      (split; [intros HE; first [by apply not_elem_of_empty in HE | done]|]);
      intros HE; by apply no_entry_empty in HE.
  - intros i x m [[[cs bs] pos] ls] Hi (Hc & Hb & Hp & Hl). cbn in *.
    split_and!; intros;
      rewrite (exists_entry_insert m i x _ Hi).
    + rewrite elem_of_union, Hc. tauto.
    + rewrite elem_of_union, Hb. tauto.
    + rewrite <- Hp. destruct (positional x), pos; intuition congruence.
    + rewrite elem_of_union, Hl. tauto.
  - specialize (Hind HA HB table).
    destruct (map_fold _ _ table) as [[[cs bs] pos] ls]. cbn in *.
    destruct Hind as (?&?&?&?). by split_and!.
Qed.

Lemma add_shape self path usage :
  add self path usage = (false, self)
  ∨ add self path usage
    = (true, mkAggregator (<[path := usage]> (_file_usage self)) None).
Proof.
  unfold add. destruct (_file_usage self !! path) as [e|]; [|by right].
  destruct (_ && _); [by left | by right].
Qed.

(** When [add] answers [True] and when [False]. *)
Lemma add_returns_true_iff self path usage :
  (add self path usage).1 = true
  ↔ _file_usage self !! path = None
    ∨ ∃ e, _file_usage self !! path = Some e
           ∧ (FileUsage_bool e = false
              ∨ commands e ≠ commands usage
              ∨ blocks e ≠ blocks usage
              ∨ positional e ≠ positional usage).
Proof.
  unfold add. destruct (_file_usage self !! path) as [e|]; cycle 1.
  { cbn [fst]. split; [by left | reflexivity]. }
  destruct (FileUsage_bool e) eqn:Eb; cbn [andb]; cycle 1.
  { cbn [fst]. split; [|reflexivity]. intros _. right. exists e.
    split; [reflexivity|]. by left. }
  destruct (bool_decide (commands e = commands usage)) eqn:E1;
    destruct (bool_decide (blocks e = blocks usage)) eqn:E2;
    destruct (bool_decide (positional e = positional usage)) eqn:E3;
    cbn [andb fst];
    rewrite ?bool_decide_eq_true, ?bool_decide_eq_false in *;
    first
    [ split; [discriminate|];
      intros [H | (e' & He & [Hb | [Hx | [Hx | Hx]]])]; simplify_eq; congruence
    | split; [|reflexivity]; intros _; right; exists e;
      split; [reflexivity|]; tauto ].
Qed.

Lemma add_true_invalidates self path usage :
  (add self path usage).1 = true →
  _cached_usage (add self path usage).2 = None
  ∧ _file_usage (add self path usage).2 !! path = Some usage.
Proof.
  destruct (add_shape self path usage) as [-> | ->]; [done|].
  intros _. cbn. by rewrite lookup_insert_eq.
Qed.

(** C5: the code answers [True] twice when an empty usage is added twice
    for the same path, although the second call changes nothing: the
    stored empty [FileUsage] is falsy, so [if existing:] takes it for an
    untracked path. *)
Theorem add_empty_usage_twice_returns_true (path : pystr) :
  let first := add init path FileUsage_empty in
  let second := add first.2 path FileUsage_empty in
  first.1 = true
  ∧ _file_usage first.2 !! path = Some FileUsage_empty
  ∧ second.1 = true.
Proof.
  cbv zeta.
  assert (add init path FileUsage_empty
          = (true, mkAggregator (<[path := FileUsage_empty]> ∅) None)) as ->.
  { unfold add, init. cbn [_file_usage]. by rewrite lookup_empty. }
  cbn [fst snd _file_usage]. unfold add. cbn [_file_usage].
  rewrite lookup_insert_eq. by split_and!.
Qed.

(** C2: the code drops a language-only update.  With toggle stored for
    a path and the snapshot cached, adding a usage that differs only by
    the language ja answers [False] through the early return, before the
    usage is stored and the cache reset: the cache is kept and the next
    [get_usage] does not report ja, where the claim has the cache
    invalidated and ja reported. *)
Lemma add_language_only_change_is_dropped :
  let path := py "a.html" in
  let e := mkFileUsage {[py "toggle"]} ∅ false ∅ in
  let u := mkFileUsage {[py "toggle"]} ∅ false {[py "ja"]} in
  let self := (get_usage (add init path e).2).2 in
  _file_usage self !! path = Some e
  ∧ (add self path u).1 = false
  ∧ _cached_usage (add self path u).2 ≠ None
  ∧ py "ja" ∈ detected_languages u
  ∧ py "ja" ∉ agg_detected_languages (get_usage (add self path u).2).1.
Proof. cbv zeta. repeat apply conj; by_computation. Qed.

(** The same holds of every state: when the usage stored for a path is
    truthy and the new usage has the same commands, blocks and positional
    flag, [add] answers [False] and changes neither the table nor the
    cache, so the next [get_usage] answers what it would have answered
    before the call, with the stored usage still recorded for the
    path. *)
Lemma add_language_only_change_keeps_state self path e usage :
  _file_usage self !! path = Some e →
  FileUsage_bool e = true →
  commands e = commands usage →
  blocks e = blocks usage →
  positional e = positional usage →
  add self path usage = (false, self)
  ∧ get_usage (add self path usage).2 = get_usage self
  ∧ (cache_consistent self →
     agg_file_usage (get_usage (add self path usage).2).1 !! path = Some e).
Proof.
  intros Hp Hb Hc Hbl Hpos.
  assert (add self path usage = (false, self)) as Hadd.
  { unfold add. rewrite Hp, Hb. cbn [andb].
    by rewrite !bool_decide_eq_true_2. }
  rewrite Hadd. cbn [snd]. split_and!; [done..|].
  unfold cache_consistent, get_usage.
  destruct (_cached_usage self) as [cached|]; cbn [fst].
  - intros ->. by destruct (aggregate_recomputed (_file_usage self))
      as (_&_&_&_&->).
  - intros _. by destruct (aggregate_recomputed (_file_usage self))
      as (_&_&_&_&->).
Qed.

Lemma add_language_only_change_keeps_state_witness :
  let path := py "a.html" in
  let e := mkFileUsage {[py "toggle"]} ∅ false ∅ in
  let u := mkFileUsage {[py "toggle"]} ∅ false {[py "ja"]} in
  let self := (get_usage (add init path e).2).2 in
  _file_usage self !! path = Some e
  ∧ FileUsage_bool e = true
  ∧ commands e = commands u
  ∧ blocks e = blocks u
  ∧ positional e = positional u
  ∧ add self path u = (false, self)
  ∧ get_usage (add self path u).2 = get_usage self
  ∧ (cache_consistent self →
     agg_file_usage (get_usage (add self path u).2).1 !! path = Some e).
Proof.
  cbv zeta. split_and!; [by vm_compute..| | |];
    apply (add_language_only_change_keeps_state _ (py "a.html")
             (mkFileUsage {[py "toggle"]} ∅ false ∅)
             (mkFileUsage {[py "toggle"]} ∅ false {[py "ja"]}));
    by vm_compute.
Defined.

(** C6: every operation of the aggregator leaves the cache, when present,
    equal to what recomputation from the file table yields, and that
    recomputation is the union of the commands, of the blocks and of the
    detected languages, the disjunction of the positional flags, and the
    file table. *)
Theorem cache_consistent_preserved self :
  cache_consistent self →
  (∀ path usage, cache_consistent (add self path usage).2)
  ∧ (∀ path, cache_consistent (remove self path).2)
  ∧ (∀ scanned_files, cache_consistent (load_from_scan self scanned_files))
  ∧ cache_consistent (clear self)
  ∧ cache_consistent (get_usage self).2
  ∧ (get_usage self).1 = aggregate (_file_usage (get_usage self).2)
  ∧ _file_usage (get_usage self).2 = _file_usage self
  ∧ recomputed (_file_usage self) (get_usage self).1.
Proof.
  intros Hinv. split_and!.
  - intros path usage.
    by destruct (add_shape self path usage) as [-> | ->].
  - intros path. unfold remove. by case_bool_decide.
  - done.
  - done.
  - unfold get_usage. unfold cache_consistent in *.
    destruct (_cached_usage self) as [cached|] eqn:E; cbn; [|done].
    by rewrite E.
  - unfold get_usage. unfold cache_consistent in *.
    by destruct (_cached_usage self) as [cached|] eqn:E.
  - unfold get_usage. by destruct (_cached_usage self).
  - unfold get_usage. unfold cache_consistent in *.
    destruct (_cached_usage self) as [cached|] eqn:E; cbn;
      [subst cached|]; apply aggregate_recomputed.
Qed.

Lemma cache_consistent_preserved_witness :
  let self :=
    (get_usage (add init (py "a.html")
                  (mkFileUsage {[py "toggle"]} ∅ true {[py "ja"]})).2).2 in
  _cached_usage self ≠ None
  ∧ cache_consistent self
  ∧ cache_consistent (clear self)
  ∧ cache_consistent (get_usage self).2.
Proof.
  cbv zeta. split; [by_computation|].
  split; [by vm_compute|].
  match goal with
  | |- cache_consistent (clear ?s) ∧ _ =>
      pose proof (cache_consistent_preserved s) as H
  end.
  destruct H as (_&_&_&Hc&Hg&_); [by vm_compute|]. by split.
Defined.

Lemma init_cache_consistent : cache_consistent init.
Proof. done. Qed.

End AggregatorProperties.

(** ** Language detection *)

Section Detection.

Context `{UnicodeDB}.

Lemma starts_with_app (kw s : pystr) :
  starts_with kw s = true ↔ ∃ post, s = kw ++ post.
Proof.
  revert s. induction kw as [|k kw IH]; intros s; cbn.
  - split; [eauto | done].
  - destruct s as [|c s]; [split; [done | by intros (? & ?)]|].
    rewrite andb_true_iff, N.eqb_eq, IH. split.
    + intros (-> & post & ->). eauto.
    + intros (post & [= -> ->]). eauto.
Qed.

Lemma starts_with_drop (kw s : pystr) :
  starts_with kw s = true → s = kw ++ drop (length kw) s.
Proof.
  intros (post & ->)%starts_with_app. by rewrite drop_app_length.
Qed.

Lemma contains_occurs_in (kw s : pystr) :
  contains kw s = true ↔ occurs_in kw s.
Proof.
  unfold occurs_in. induction s as [|c s IH]; cbn.
  - rewrite orb_false_r, starts_with_app. split.
    + intros (post & Hs). by exists [], post.
    + intros (pre & post & Hs).
      destruct pre; [by exists post|done].
  - rewrite orb_true_iff, starts_with_app, IH. split.
    + intros [(post & ->) | (pre & post & ->)];
        [by exists [], post | by exists (c :: pre), post].
    + intros ([|c' pre] & post & Hs); [left; by exists post|].
      right. injection Hs as -> ->. eauto.
Qed.

Lemma last_of_nil (prev : option N) : last_of prev [] = prev.
Proof. reflexivity. Qed.

Lemma last_of_None (pre : pystr) : last_of None pre = last pre.
Proof. unfold last_of. by destruct (last pre). Qed.

Lemma last_of_cons (prev : option N) (c : N) (k : pystr) :
  last_of (Some c) k = last_of prev (c :: k).
Proof. unfold last_of. rewrite last_cons. by destruct (last k). Qed.

Lemma last_of_app (prev : option N) (pre k : pystr) :
  last_of (last_of prev pre) k = last_of prev (pre ++ k).
Proof. unfold last_of. rewrite last_app. by destruct (last k). Qed.

(** A literal matches in one way, when the subject starts with it. *)
Lemma rmatch_lit (k : pystr) (st : mstate) :
  rmatch (lit k) st
  = if starts_with k (m_rest st)
    then [MState (last_of (m_prev st) k) (drop (length k) (m_rest st))
                 (m_group st)]
    else [].
Proof.
  unfold lit. revert st. induction k as [|c k IH]; intros [prev rest g].
  - reflexivity.
  - cbn [fmap list_fmap seq_of rmatch m_rest m_prev m_group starts_with
         compose].
    destruct rest as [|x rest]; [reflexivity|].
    change (ch c x) with (c =? x). destruct (c =? x) eqn:E; [|reflexivity].
    apply N.eqb_eq in E as <-. cbn [mbind list_bind andb].
    rewrite app_nil_r. change (list_fmap _ _ (Chr ∘ ch) k) with ((Chr ∘ ch) <$> k).
    rewrite IH. cbn [m_rest m_prev m_group length drop].
    by rewrite (last_of_cons prev).
Qed.

Lemma match_at_keyword (kw : pystr) (prev : option N) (s : pystr) :
  matched (match_at (keyword_pattern kw) prev s) = true
  ↔ at_boundary prev s = true
    ∧ starts_with (lower kw) s = true
    ∧ at_boundary (last_of prev (lower kw)) (drop (length (lower kw)) s) = true.
Proof.
  unfold match_at, keyword_pattern.
  cbn [seq_of rmatch m_prev m_rest m_group].
  destruct (at_boundary prev s); cbn [mbind list_bind]; [|naive_solver].
  rewrite app_nil_r, rmatch_lit. cbn [m_prev m_rest m_group].
  destruct (starts_with (lower kw) s); cbn [mbind list_bind]; [|naive_solver].
  cbn [rmatch m_prev m_rest].
  destruct (at_boundary _ _); cbn; naive_solver.
Qed.

(** [search] succeeds when the pattern matches at some position. *)
Lemma search_from_matched (r : re) (prev : option N) (s : pystr) :
  matched (search_from r prev s) = true
  ↔ ∃ pre post, s = pre ++ post
                ∧ matched (match_at r (last_of prev pre) post) = true.
Proof.
  revert prev. induction s as [|x s IH]; intros prev; cbn [search_from].
  - destruct (match_at r prev []) eqn:E; cbn [matched].
    + split; [|done]. intros _. exists [], [].
      by rewrite last_of_nil, E.
    + split; [done|]. intros (pre & post & Hs & Hm).
      symmetry in Hs. apply app_eq_nil in Hs as [-> ->].
      by rewrite last_of_nil, E in Hm.
  - destruct (match_at r prev (x :: s)) eqn:E; cbn [matched].
    + split; [|done]. intros _. exists [], (x :: s).
      by rewrite last_of_nil, E.
    + rewrite IH. split.
      * intros (pre & post & -> & Hm). exists (x :: pre), post.
        split; [done|]. by rewrite <- (last_of_cons prev).
      * intros ([|x' pre] & post & Hs & Hm).
        { cbn [app] in Hs. subst post.
          by rewrite last_of_nil, E in Hm. }
        injection Hs as -> ->. exists pre, post. split; [done|].
        by rewrite (last_of_cons prev).
Qed.

Lemma at_boundary_word_boundary (pre post : pystr) :
  at_boundary (last pre) post = true ↔ word_boundary pre post.
Proof.
  unfold at_boundary, word_boundary.
  destruct (word_at (last pre)), (word_at (head post)); cbn; naive_solver.
Qed.

(** The pattern built for a keyword finds exactly its whole-word
    occurrences. *)
Lemma search_keyword_occurs_as_word (kw s : pystr) :
  matched (search (keyword_pattern kw) s) = true
  ↔ occurs_as_word (lower kw) s.
Proof.
  unfold search, occurs_as_word. rewrite search_from_matched. split.
  - intros (pre & post & -> & Hm). apply match_at_keyword in Hm.
    destruct Hm as (Hb1 & Hs & Hb2).
    apply starts_with_drop in Hs. exists pre, (drop (length (lower kw)) post).
    rewrite <- Hs. split; [done|].
    rewrite last_of_app, !last_of_None in *.
    split; by apply at_boundary_word_boundary.
  - intros (pre & post & -> & Hb1 & Hb2).
    exists pre, (lower kw ++ post). split; [done|].
    apply match_at_keyword.
    rewrite last_of_app, !last_of_None, drop_app_length. split_and!.
    + by apply at_boundary_word_boundary.
    + apply starts_with_app. eauto.
    + by apply at_boundary_word_boundary.
Qed.

Lemma keyword_hit_latin (script lang : pystr) (keywords : list pystr) :
  lang ∉ non_latin_langs →
  keyword_hit script (lower script) lang keywords = true
  ↔ ∃ kw, kw ∈ keywords ∧ (2 < length kw)%nat
          ∧ occurs_as_word (lower kw) (lower script).
Proof.
  intros Hlatin. unfold keyword_hit.
  rewrite (bool_decide_eq_false_2 _ Hlatin), existsb_exists.
  split; intros (kw & Hin & Hkw); exists kw.
  - apply list_elem_of_In in Hin. split; [done|].
    destruct (length kw <=? 2)%nat eqn:E; [done|].
    apply Nat.leb_gt in E. by apply search_keyword_occurs_as_word in Hkw.
  - apply list_elem_of_In in Hin. split; [done|]. destruct Hkw as [Hlen Hocc].
    apply Nat.leb_gt in Hlen as ->.
    by apply search_keyword_occurs_as_word.
Qed.

Lemma keyword_hit_non_latin (script script_lower lang : pystr)
    (keywords : list pystr) :
  lang ∈ non_latin_langs →
  keyword_hit script script_lower lang keywords = true
  ↔ ∃ kw, kw ∈ keywords ∧ occurs_in kw script.
Proof.
  intros Hnon. unfold keyword_hit.
  rewrite (bool_decide_eq_true_2 _ Hnon), existsb_exists.
  split; intros (kw & Hin & Hkw); exists kw;
    apply list_elem_of_In in Hin; (split; [done|]);
    by apply contains_occurs_in.
Qed.

(** The loop over [LANGUAGE_KEYWORDS] adds the languages that have a
    hit, and only them. *)
Lemma detect_loop (script script_lower : pystr)
    (table : list (pystr * list pystr)) (detected : gset pystr) (lang : pystr) :
  lang ∈ foldl (λ detected '(lang, keywords),
                  if keyword_hit script script_lower lang keywords
                  then detected ∪ {[lang]} else detected)
               detected table
  ↔ lang ∈ detected
    ∨ ∃ keywords, (lang, keywords) ∈ table
                  ∧ keyword_hit script script_lower lang keywords = true.
Proof.
  revert detected. induction table as [|[l kws] table IH]; intros detected.
  - cbn. split; [auto|]. intros [?|(? & Hin & _)]; [done|].
    by apply elem_of_nil in Hin.
  - cbn [foldl]. rewrite IH. split.
    + intros [Hd | (keywords & Hin & Hhit)].
      * destruct (keyword_hit script script_lower l kws) eqn:E; [|by left].
        apply elem_of_union in Hd as [Hd | ->%elem_of_singleton]; [by left|].
        right. exists kws. split; [left|done].
      * right. exists keywords. split; [by right|done].
    + intros [Hd | (keywords & Hin & Hhit)].
      * left. destruct (keyword_hit _ _ l kws); set_solver.
      * apply elem_of_cons in Hin as [[= -> ->] | Hin].
        -- left. rewrite Hhit. set_solver.
        -- right. eauto.
Qed.

Lemma detect_languages_elem (script lang : pystr) :
  lang ∈ detect_languages script
  ↔ ∃ keywords, (lang, keywords) ∈ LANGUAGE_KEYWORDS
                ∧ keyword_hit script (lower script) lang keywords = true.
Proof.
  unfold detect_languages. cbv zeta. rewrite detect_loop.
  split; [intros [?%not_elem_of_empty|?]; [done|done] | by right].
Qed.

Lemma english_has_no_keywords : py "en" ∉ LANGUAGE_KEYWORDS.*1.
Proof. by_computation. Qed.

Lemma language_keys_distinct : NoDup (LANGUAGE_KEYWORDS.*1).
Proof. by_computation. Qed.

Lemma language_keywords_unique (lang : pystr) (k1 k2 : list pystr) :
  (lang, k1) ∈ LANGUAGE_KEYWORDS → (lang, k2) ∈ LANGUAGE_KEYWORDS → k1 = k2.
Proof.
  pose proof language_keys_distinct as Hnd.
  revert Hnd. generalize LANGUAGE_KEYWORDS. intros table Hnd H1 H2.
  induction table as [|[l k] table IH]; [by apply elem_of_nil in H1|].
  cbn in Hnd. apply NoDup_cons in Hnd as [Hnot Hnd].
  apply elem_of_cons in H1 as [E1 | H1];
    apply elem_of_cons in H2 as [E2 | H2]; simplify_eq; auto.
  - exfalso. apply Hnot. apply list_elem_of_fmap. by eexists (_, k2).
  - exfalso. apply Hnot. apply list_elem_of_fmap. by eexists (_, k1).
Qed.

(** C8: the detected languages never include en; a language matched on
    word boundaries is detected exactly when one of its keywords longer
    than two code points occurs, lower-cased, as a whole word of the
    lower-cased script; a language of [non_latin_langs] is detected
    exactly when one of its keywords, of any length, is a substring of
    the script; and [non_latin_langs] holds the nine codes ja, ko, zh,
    ar, ru, uk, hi, bn and th, no other. *)
Theorem detect_languages_spec (script lang : pystr) (keywords : list pystr) :
  (lang, keywords) ∈ LANGUAGE_KEYWORDS →
  (py "en" ∉ detect_languages script)
  ∧ (lang ∉ non_latin_langs →
     (lang ∈ detect_languages script
      ↔ ∃ kw, kw ∈ keywords ∧ (2 < length kw)%nat
              ∧ occurs_as_word (lower kw) (lower script)))
  ∧ (lang ∈ non_latin_langs →
     (lang ∈ detect_languages script
      ↔ ∃ kw, kw ∈ keywords ∧ occurs_in kw script))
  ∧ (∀ code, code ∈ non_latin_langs
             ↔ code ∈ py <$> ["ja"; "ko"; "zh"; "ar"; "ru"; "uk"; "hi";
                              "bn"; "th"]%string).
Proof.
  intros Hentry. split_and!.
  - rewrite detect_languages_elem. intros (kws & Hin & _).
    apply english_has_no_keywords, list_elem_of_fmap. by exists (py "en", kws).
  - intros Hlatin. rewrite detect_languages_elem,
      <- (keyword_hit_latin script lang keywords Hlatin). split.
    + intros (kws & Hin & Hhit).
      by rewrite (language_keywords_unique lang keywords kws).
    + eauto.
  - intros Hnon. rewrite detect_languages_elem,
      <- (keyword_hit_non_latin script (lower script) lang keywords Hnon).
    split.
    + intros (kws & Hin & Hhit).
      by rewrite (language_keywords_unique lang keywords kws).
    + eauto.
  - intros code. unfold non_latin_langs. apply elem_of_list_to_set.
Qed.

End Detection.

(** Spanish is matched on word boundaries and Japanese by containment:
    the one-character keyword of ja is found inside a word, where a
    keyword of a language matched on word boundaries would be skipped
    for its length and for the missing boundaries. *)
Lemma detect_languages_spec_witness :
  let es := LANGUAGE_KEYWORDS !!! 4%nat in
  let ja := LANGUAGE_KEYWORDS !!! 0%nat in
  ((es.1, es.2) ∈ LANGUAGE_KEYWORDS ∧ es.1 = py "es"
   ∧ (es.1 ∉ non_latin_langs)
   ∧ es.1 ∈ detect_languages (py "on click MOSTRAR #menu")
   ∧ (es.1 ∉ detect_languages (py "on click mostrarlo #menu")))
  ∧ ((ja.1, ja.2) ∈ LANGUAGE_KEYWORDS ∧ ja.1 = py "ja"
     ∧ ja.1 ∈ non_latin_langs
     ∧ py "次" ∈ ja.2
     ∧ ja.1 ∈ detect_languages (py "x次y")
     ∧ (py "en" ∉ detect_languages (py "x次y"))).
Proof.
  cbv zeta.
  assert ((LANGUAGE_KEYWORDS !!! 4%nat).1 ∉ non_latin_langs) as Hlatin
    by by_computation.
  assert ((LANGUAGE_KEYWORDS !!! 0%nat).1 ∈ non_latin_langs) as Hnon
    by by_computation.
  assert (py "次" ∈ (LANGUAGE_KEYWORDS !!! 0%nat).2) as Hkw by by_computation.
  split.
  - destruct (detect_languages_spec (py "on click MOSTRAR #menu")
                (LANGUAGE_KEYWORDS !!! 4%nat).1 (LANGUAGE_KEYWORDS !!! 4%nat).2)
      as (_ & Hword & _); [by_computation|].
    split_and!; [by_computation..|done| |by_computation].
    apply (Hword Hlatin). exists (py "mostrar").
    split; [by_computation|]. split; [by_computation|].
    exists (py "on click "), (py " #menu"). split_and!; by_computation.
  - destruct (detect_languages_spec (py "x次y")
                (LANGUAGE_KEYWORDS !!! 0%nat).1 (LANGUAGE_KEYWORDS !!! 0%nat).2)
      as (Hen & _ & Hsub & _); [by_computation|].
    split_and!; [by_computation..|done|done| |done].
    apply (Hsub Hnon). exists (py "次"). split; [done|].
    exists (py "x"), (py "y"). by vm_compute.
Defined.

(** ** Extraction *)

Section Extraction.

Context `{UnicodeDB}.

Lemma lstrip_head (s : pystr) (c : N) :
  head (lstrip s) = Some c → is_space c = false.
Proof.
  induction s as [|x s IH]; cbn; [done|].
  destruct (is_space x) eqn:E; [done|]. cbn. congruence.
Qed.

Lemma lstrip_suffix (s : pystr) : ∃ pre, s = pre ++ lstrip s.
Proof.
  induction s as [|x s [pre IH]]; cbn; [by exists []|].
  destruct (is_space x); [|by exists []].
  exists (x :: pre). cbn. by rewrite <- IH.
Qed.

Lemma rstrip_last (s : pystr) (c : N) :
  last (rstrip s) = Some c → is_space c = false.
Proof. unfold rstrip. rewrite last_reverse. apply lstrip_head. Qed.

Lemma rstrip_prefix (s : pystr) : ∃ post, s = rstrip s ++ post.
Proof.
  unfold rstrip. destruct (lstrip_suffix (reverse s)) as [pre Hpre].
  exists (reverse pre).
  rewrite <- reverse_app, <- Hpre. by rewrite reverse_involutive.
Qed.

(** What [strip] leaves, if anything, has no white space at its ends. *)
Lemma strip_trimmed (s : pystr) : strip s ≠ [] → trimmed (strip s).
Proof.
  intros Hne. split_and!; [done| |apply rstrip_last].
  intros c Hc. unfold strip in *.
  destruct (rstrip_prefix (lstrip s)) as [post Hpost].
  apply (lstrip_head s). rewrite Hpost, head_app, Hc. done.
Qed.

(** The matches of [finditer] start at strictly increasing offsets. *)
Lemma finditer_from_starts (r : re) (s : pystr) (prev : option N)
    (pos skip : nat) :
  Forall (λ m, (pos ≤ f_start m)%nat) (finditer_from r prev s pos skip)
  ∧ StronglySorted lt (f_start <$> finditer_from r prev s pos skip).
Proof.
  revert prev pos skip.
  induction s as [|x s IH]; intros prev pos skip.
  - destruct skip; cbn; [|by split; constructor].
    destruct (match_at r prev []); cbn; split; repeat constructor.
  - assert (∀ prev' skip',
      Forall (λ m, (pos ≤ f_start m)%nat)
             (finditer_from r prev' s (S pos) skip')) as Hge.
    { intros prev' skip'. eapply Forall_impl; [apply IH|].
      cbn. intros; lia. }
    destruct skip as [|skip]; cbn [finditer_from]; [|split; [done|apply IH]].
    destruct (match_at r prev (x :: s)); [|split; [done|apply IH]].
    split.
    + constructor; [done|apply Hge].
    + cbn [fmap list_fmap f_start]. constructor; [apply IH|].
      apply Forall_fmap. eapply Forall_impl; [apply IH|].
      cbn. intros; lia.
Qed.

Lemma finditer_starts_increase (r : re) (s : pystr) :
  StronglySorted lt (f_start <$> finditer r s).
Proof. apply finditer_from_starts. Qed.

(** One pattern contributes its scripts in the order of its matches. *)
Lemma occurrences_of_scripts (i : nat) (r : re) (content : pystr) :
  o_script <$> occurrences_of i r content = scripts_of r content.
Proof.
  unfold occurrences_of, scripts_of.
  induction (finditer r content) as [|m l IH]; [done|].
  cbn [fmap list_fmap]. rewrite !filter_cons. cbn [o_script].
  destruct (decide (strip (f_group m) ≠ [])); cbn; by rewrite <- IH.
Qed.

Lemma occurrences_of_sorted (i : nat) (r : re) (content : pystr) :
  Forall (λ o, o_pattern o = i) (occurrences_of i r content)
  ∧ StronglySorted occurs_before (occurrences_of i r content).
Proof.
  unfold occurrences_of.
  pose proof (finditer_starts_increase r content) as Hs.
  induction (finditer r content) as [|m l IH]; [by split; constructor|].
  cbn [fmap list_fmap] in *. apply StronglySorted_cons in Hs as [Hm Hs].
  destruct (IH Hs) as [IH1 IH2]. rewrite filter_cons.
  destruct (decide _); [|done]. split; [by constructor|].
  constructor; [done|].
  apply Forall_forall. intros o Ho.
  apply list_elem_of_filter in Ho as [_ Ho].
  apply list_elem_of_fmap in Ho as (m' & -> & Hm').
  right. cbn. split; [done|].
  rewrite Forall_fmap, Forall_forall in Hm. by apply Hm.
Qed.

Lemma occurrences_from_scripts (i : nat) (patterns : list re)
    (content : pystr) :
  o_script <$> occurrences_from i patterns content
  = patterns ≫= (λ pattern, scripts_of pattern content).
Proof.
  revert i. induction patterns as [|r patterns IH]; intros i; [done|].
  cbn [occurrences_from mbind list_bind].
  by rewrite fmap_app, occurrences_of_scripts, IH.
Qed.

Lemma occurrences_from_sorted (i : nat) (patterns : list re)
    (content : pystr) :
  Forall (λ o, (i ≤ o_pattern o)%nat) (occurrences_from i patterns content)
  ∧ StronglySorted occurs_before (occurrences_from i patterns content).
Proof.
  revert i. induction patterns as [|r patterns IH]; intros i;
    [by split; constructor|].
  cbn [occurrences_from].
  destruct (occurrences_of_sorted i r content) as [Hi Hs].
  destruct (IH (S i)) as [Hge Hsorted].
  rewrite Forall_forall in Hi, Hge. split.
  - apply Forall_app. split; apply Forall_forall; intros o Ho.
    + by rewrite (Hi o Ho).
    + apply Hge in Ho. lia.
  - apply StronglySorted_app_2; [|done..].
    intros a b Ha Hb. left. rewrite (Hi a Ha). apply Hge in Hb. lia.
Qed.

Lemma scripts_of_trimmed (r : re) (content : pystr) :
  Forall trimmed (scripts_of r content).
Proof.
  unfold scripts_of. apply Forall_forall. intros s Hs.
  apply list_elem_of_filter in Hs as [Hne Hs].
  apply list_elem_of_fmap in Hs as (m & -> & _). by apply strip_trimmed.
Qed.

(** C7, amended: the extracted scripts are the trimmed captures of the
    matches that leave something after trimming, one per match, ordered
    by pattern in the order of [HYPERSCRIPT_PATTERNS] and, for one
    pattern, by increasing start offset. *)
Theorem extract_hyperscript_pattern_order (content : pystr) :
  extract_hyperscript content = o_script <$> occurrences content
  ∧ StronglySorted occurs_before (occurrences content)
  ∧ Forall trimmed (extract_hyperscript content).
Proof.
  unfold extract_hyperscript, occurrences. split_and!.
  - by rewrite occurrences_from_scripts.
  - apply occurrences_from_sorted.
  - apply Forall_forall. intros s Hs.
    apply list_elem_of_bind in Hs as (r & Hs & _).
    pose proof (scripts_of_trimmed r content) as Ht.
    rewrite Forall_forall in Ht. by apply Ht.
Qed.

End Extraction.

(** C7, as stated, fails: the backtick attribute comes first in the
    content and the single-quoted one second, yet the script of the
    single-quoted one is returned first, because its pattern is applied
    earlier. *)
Lemma extract_hyperscript_not_in_content_order :
  let content := py "_=`a` _='b'" in
  extract_hyperscript content = [py "b"; py "a"]
  ∧ extract_in_content_order content = [py "a"; py "b"].
Proof. cbv zeta. split; by_computation. Qed.

(** Equal scripts are all kept. *)
Lemma extract_hyperscript_keeps_duplicates :
  extract_hyperscript (py "_='a' _='a'") = [py "a"; py "a"].
Proof. by_computation. Qed.

(** ** File scanner *)

Section FileScanner.

Context `{UnicodeDB} (self : Scanner) (fs : FileSystem).

(** [scan_content] always returns, whatever was printed before. *)
Lemma scan_content_returns (content file_path : pystr) (out : list log_event) :
  ∃ usage out', scan_content self content file_path out = (Returned usage, out')
                ∧ ∀ out0, (scan_content self content file_path out0).1
                          = Returned usage.
Proof.
  unfold scan_content. cbv zeta.
  destruct (debug self && FileUsage_bool _); eauto.
Qed.

(** The answer of [scan_file] does not depend on what was printed. *)
Lemma scan_file_result (path : pystr) (out : list log_event) :
  (scan_file self fs path out).1 = file_usage_of self fs path.
Proof.
  unfold file_usage_of, run, scan_file, try_except, bind, lift.
  destruct (fs_read_text fs path) as [content|e].
  - destruct (scan_content_returns content path out) as (u & o & E & Hu).
    destruct (scan_content_returns content path []) as (u' & o' & E' & _).
    pose proof (Hu []) as Hu0. rewrite E' in Hu0. cbn in Hu0.
    rewrite E, E'. cbn. congruence.
  - destruct (is_Exception e); [|done]. by destruct (debug self).
Qed.

Lemma file_usage_of_read_failure (path : pystr) (e : py_exception) :
  fs_read_text fs path = Raised e →
  is_Exception e = true →
  file_usage_of self fs path = Returned FileUsage_empty.
Proof.
  intros Hread He.
  unfold file_usage_of, run, scan_file, try_except, bind, lift.
  rewrite Hread, He. by destruct (debug self).
Qed.

(** With reads that fail only by an [Exception], [scan_file] returns. *)
Lemma scan_file_returns (path : pystr) (out : list log_event) :
  (∀ e, fs_read_text fs path = Raised e → is_Exception e = true) →
  ∃ usage out', scan_file self fs path out = (Returned usage, out').
Proof.
  intros Hreads. unfold scan_file, try_except, bind, lift.
  destruct (fs_read_text fs path) as [content|e].
  - destruct (scan_content_returns content path out) as (u & o & -> & _).
    eauto.
  - rewrite (Hreads e eq_refl). destruct (debug self); cbn; eauto.
Qed.


(** What the loop of [scan_directory] leaves in the mapping was there
    before or is the truthy usage of the path it is stored under. *)
Lemma scan_loop_entries (paths : list pystr) :
  ∀ (results : gmap pystr FileUsage) out results' out',
    for_each paths
      (λ results path,
         if fs_is_file fs path && should_scan self fs path then
           usage ←← scan_file self fs path;;
           ret (if FileUsage_bool usage then <[path := usage]> results
                else results)
         else ret results)
      results out = (Returned results', out') →
    ∀ p u, results' !! p = Some u →
      results !! p = Some u
      ∨ (file_usage_of self fs p = Returned u ∧ FileUsage_bool u = true).
Proof.
  induction paths as [|path paths IH]; intros results out results' out' Hrun p u Hp.
  - cbn in Hrun. injection Hrun as <- _. by left.
  - cbn [for_each] in Hrun. unfold bind at 1 in Hrun.
    destruct (fs_is_file fs path && should_scan self fs path).
    + unfold bind at 1 in Hrun.
      pose proof (scan_file_result path out) as Hres.
      destruct (scan_file self fs path out) as [[usage|e] out1]; [|done].
      cbn [fst] in Hres. unfold ret at 1 in Hrun.
      destruct (IH _ _ _ _ Hrun p u Hp) as [Hold | Hnew]; [|by right].
      destruct (FileUsage_bool usage) eqn:Eb; [|by left].
      destruct (decide (path = p)) as [->|Hne].
      * rewrite lookup_insert_eq in Hold. injection Hold as ->.
        right. by rewrite <- Hres.
      * rewrite lookup_insert_ne in Hold by done. by left.
    + unfold ret at 1 in Hrun. eauto.
Qed.

(** With reads that fail only by an [Exception], the loop returns. *)
Lemma scan_loop_returns (paths : list pystr) :
  (∀ path e, fs_read_text fs path = Raised e → is_Exception e = true) →
  ∀ (results : gmap pystr FileUsage) out, ∃ results' out',
    for_each paths
      (λ results path,
         if fs_is_file fs path && should_scan self fs path then
           usage ←← scan_file self fs path;;
           ret (if FileUsage_bool usage then <[path := usage]> results
                else results)
         else ret results)
      results out = (Returned results', out').
Proof.
  intros Hreads. induction paths as [|path paths IH]; intros results out.
  - cbn. unfold ret. eauto.
  - cbn [for_each]. unfold bind at 1.
    destruct (fs_is_file fs path && should_scan self fs path).
    + unfold bind at 1.
      destruct (scan_file_returns path out (Hreads path)) as (usage & out1 & ->).
      unfold ret at 1. apply IH.
    + unfold ret at 1. apply IH.
Qed.

(** C10: [scan_directory] returns a mapping when no read raises past
    [except Exception]; every usage in a returned mapping is the usage
    scanned for its path and has a command, a block or the positional
    flag; a file whose usage has none of them, whatever its detected
    languages, is left out, so the aggregate loaded from the mapping
    draws its languages from the truthy usages only. *)
Theorem scan_directory_keeps_truthy_only (directory : pystr)
    (out : list log_event) :
  ((∀ path e, fs_read_text fs path = Raised e → is_Exception e = true) →
   ∃ results out', scan_directory self fs directory out = (Returned results, out'))
  ∧ ∀ results out',
      scan_directory self fs directory out = (Returned results, out') →
      (∀ path usage, results !! path = Some usage →
         file_usage_of self fs path = Returned usage
         ∧ FileUsage_bool usage = true
         ∧ (commands usage ≠ ∅ ∨ blocks usage ≠ ∅ ∨ positional usage = true))
      ∧ (∀ path usage,
           file_usage_of self fs path = Returned usage →
           commands usage = ∅ → blocks usage = ∅ → positional usage = false →
           results !! path = None)
      ∧ (∀ lang,
           lang ∈ agg_detected_languages
                    (get_usage (load_from_scan init results)).1 →
           ∃ path usage, results !! path = Some usage
                         ∧ FileUsage_bool usage = true
                         ∧ lang ∈ detected_languages usage).
Proof.
  split.
  - intros Hreads. unfold scan_directory.
    destruct (negb (fs_exists fs directory)); [unfold ret; eauto|].
    by apply scan_loop_returns.
  - intros results out' Hrun.
    assert (∀ path usage, results !! path = Some usage →
              file_usage_of self fs path = Returned usage
              ∧ FileUsage_bool usage = true) as Hentries.
    { intros path usage Hp. unfold scan_directory in Hrun.
      destruct (negb (fs_exists fs directory)).
      - injection Hrun as <- _. by rewrite lookup_empty in Hp.
      - destruct (scan_loop_entries _ _ _ _ _ Hrun path usage Hp)
          as [Hold | Hnew]; [by rewrite lookup_empty in Hold | done]. }
    split_and!.
    + intros path usage Hp. destruct (Hentries path usage Hp) as [Hu Hb].
      split_and!; [done..|]. by apply FileUsage_truthy_iff.
    + intros path usage Hu Hc Hb Hpos.
      destruct (results !! path) as [usage'|] eqn:Hp; [|done].
      destruct (Hentries path usage' Hp) as [Hu' Hb'].
      rewrite Hu in Hu'. injection Hu' as <-.
      assert (FileUsage_bool usage = false) as Hf
        by (apply FileUsage_bool_false_iff; auto).
      congruence.
    + intros lang Hlang. cbn in Hlang.
      destruct (aggregate_recomputed results) as (_ & _ & _ & Hl & _).
      apply Hl in Hlang as (path & usage & Hp & Hin).
      exists path, usage. split_and!; [done| |done].
      by apply (Hentries path usage).
Qed.

End FileScanner.


(** In the example directory only the template with an English command
    is kept; the Japanese one is scanned as falsy and left out with its
    language. *)
Lemma scan_directory_keeps_truthy_only_witness :
  let self := Scanner_init None None false in
  let results : gmap pystr FileUsage :=
    {[ py "t/en.html" := mkFileUsage {[py "toggle"]} ∅ false ∅ ]} in
  scan_directory self demo_fs (py "t") [] = (Returned results, [])
  ∧ file_usage_of self demo_fs (py "t/ja.html")
    = Returned (mkFileUsage ∅ ∅ false {[py "ja"]})
  ∧ results !! py "t/ja.html" = None
  ∧ py "ja" ∉ agg_detected_languages
                (get_usage (load_from_scan init results)).1.
Proof.
  cbv zeta.
  assert (scan_directory (Scanner_init None None false) demo_fs (py "t") []
          = (Returned {[ py "t/en.html" := mkFileUsage {[py "toggle"]} ∅ false ∅ ]},
             [])) as Hrun by (by vm_compute).
  assert (file_usage_of (Scanner_init None None false) demo_fs (py "t/ja.html")
          = Returned (mkFileUsage ∅ ∅ false {[py "ja"]})) as Hja
    by (by vm_compute).
  destruct (scan_directory_keeps_truthy_only (Scanner_init None None false)
              demo_fs (py "t") []) as [_ Hspec].
  destruct (Hspec _ _ Hrun) as (_ & Hout & Hlang).
  split_and!; [done | done | |].
  - by apply (Hout _ _ Hja).
  - intros Hin. apply Hlang in Hin as (path & usage & Hp & _ & Hin).
    apply lookup_singleton_Some in Hp as [_ <-]. by apply not_elem_of_empty in Hin.
Defined.

(** ** More on the scanner *)

Section ScannerMore.

Context `{UnicodeDB}.

Lemma FileUsage_eq (a b : FileUsage) :
  commands a = commands b → blocks a = blocks b →
  positional a = positional b →
  detected_languages a = detected_languages b → a = b.
Proof. destruct a, b; cbn; by intros -> -> -> ->. Qed.

(** X1: [merge] is associative and commutative and has the empty usage
    as its unit on both sides. *)
Theorem merge_assoc_comm_unit (a b c : FileUsage) :
  merge a (merge b c) = merge (merge a b) c
  ∧ merge a b = merge b a
  ∧ merge a FileUsage_empty = a
  ∧ merge FileUsage_empty a = a.
Proof.
  split_and!; apply FileUsage_eq; cbn [merge FileUsage_empty commands blocks
      positional detected_languages];
    rewrite ?(assoc_L (∪)), ?(right_id_L ∅ (∪)), ?(left_id_L ∅ (∪));
    try done; try apply (comm_L (∪));
    by destruct (positional a), (positional b), (positional c).
Qed.

(** X2: a merge is truthy exactly when one of its two sides is. *)
Theorem merge_bool (a b : FileUsage) :
  FileUsage_bool (merge a b) = FileUsage_bool a || FileUsage_bool b.
Proof.
  apply eq_true_iff_eq.
  rewrite orb_true_iff, !FileUsage_truthy_iff. cbn.
  assert (∀ X Y : gset pystr, X ∪ Y ≠ ∅ ↔ X ≠ ∅ ∨ Y ≠ ∅) as Hu.
  { intros X Y. rewrite empty_union_L.
    destruct (decide (X = ∅)), (decide (Y = ∅)); naive_solver. }
  rewrite !Hu. destruct (positional a), (positional b); naive_solver.
Qed.

(** What the loop of [scan_content] accumulates, field by field. *)
Lemma merge_loop_fields (f : pystr → FileUsage) (scripts : list pystr) :
  ∀ acc,
    let usage := foldl (λ usage script, merge usage (f script)) acc scripts in
    (∀ c, c ∈ commands usage
          ↔ c ∈ commands acc ∨ ∃ s, s ∈ scripts ∧ c ∈ commands (f s))
    ∧ (∀ b, b ∈ blocks usage
            ↔ b ∈ blocks acc ∨ ∃ s, s ∈ scripts ∧ b ∈ blocks (f s))
    ∧ (positional usage = true
       ↔ positional acc = true ∨ ∃ s, s ∈ scripts ∧ positional (f s) = true)
    ∧ (∀ l, l ∈ detected_languages usage
            ↔ l ∈ detected_languages acc
              ∨ ∃ s, s ∈ scripts ∧ l ∈ detected_languages (f s)).
Proof.
  induction scripts as [|s scripts IH]; intros acc; cbn zeta.
  - cbn [foldl]. split_and!; intros; (split; [by left|]);
      intros [?|(s & Hs & _)]; try done; by apply elem_of_nil in Hs.
  - cbn [foldl]. destruct (IH (merge acc (f s))) as (Hc & Hb & Hp & Hl).
    cbn zeta in *. split_and!; intros.
    + rewrite Hc. cbn [merge commands]. rewrite elem_of_union. split.
      * intros [[?|?]|(s' & Hs' & ?)]; [by left| |];
          right; [exists s | exists s']; split; try done;
          [left | by right].
      * intros [?|(s' & Hs' & ?)]; [by left; left|].
        apply elem_of_cons in Hs' as [->|Hs']; [by left; right|].
        right. eauto.
    + rewrite Hb. cbn [merge blocks]. rewrite elem_of_union. split.
      * intros [[?|?]|(s' & Hs' & ?)]; [by left| |];
          right; [exists s | exists s']; split; try done;
          [left | by right].
      * intros [?|(s' & Hs' & ?)]; [by left; left|].
        apply elem_of_cons in Hs' as [->|Hs']; [by left; right|].
        right. eauto.
    + rewrite Hp. cbn [merge positional]. split.
      * intros [Hm|(s' & Hs' & ?)].
        -- destruct (positional (f s)) eqn:E; [|by left].
           right. exists s. split; [left|done].
        -- right. exists s'. split; [by right|done].
      * intros [Ha|(s' & Hs' & Hs)].
        -- left. rewrite Ha. by destruct (positional (f s)).
        -- apply elem_of_cons in Hs' as [->|Hs']; [|right; eauto].
           left. by rewrite Hs.
    + rewrite Hl. cbn [merge detected_languages]. rewrite elem_of_union. split.
      * intros [[?|?]|(s' & Hs' & ?)]; [by left| |];
          right; [exists s | exists s']; split; try done;
          [left | by right].
      * intros [?|(s' & Hs' & ?)]; [by left; left|].
        apply elem_of_cons in Hs' as [->|Hs']; [by left; right|].
        right. eauto.
Qed.

Lemma scan_content_usage (self : Scanner) (content file_path : pystr)
    (out : list log_event) :
  (scan_content self content file_path out).1 = Returned (content_usage content).
Proof.
  unfold scan_content, content_usage. cbv zeta.
  by destruct (debug self && FileUsage_bool _).
Qed.

(** X3: [scan_content] returns the union, over the extracted scripts, of
    what [analyze_script] finds in each; with no script extracted it
    returns the empty, falsy usage. *)
Theorem scan_content_is_union (self : Scanner) (content file_path : pystr)
    (out : list log_event) :
  ∃ usage,
    (scan_content self content file_path out).1 = Returned usage
    ∧ (∀ c, c ∈ commands usage
            ↔ ∃ s, s ∈ extract_hyperscript content
                   ∧ c ∈ commands (analyze_script s))
    ∧ (∀ b, b ∈ blocks usage
            ↔ ∃ s, s ∈ extract_hyperscript content
                   ∧ b ∈ blocks (analyze_script s))
    ∧ (positional usage = true
       ↔ ∃ s, s ∈ extract_hyperscript content
              ∧ positional (analyze_script s) = true)
    ∧ (∀ l, l ∈ detected_languages usage
            ↔ ∃ s, s ∈ extract_hyperscript content
                   ∧ l ∈ detected_languages (analyze_script s))
    ∧ (extract_hyperscript content = [] →
       usage = FileUsage_empty ∧ FileUsage_bool usage = false).
Proof.
  exists (content_usage content). split; [apply scan_content_usage|].
  destruct (merge_loop_fields analyze_script (extract_hyperscript content)
              FileUsage_empty) as (Hc & Hb & Hp & Hl).
  cbn zeta in *. fold (content_usage content) in *.
  split_and!.
  - intros c. rewrite Hc. split; [|by right].
    intros [Hin|?]; [by apply not_elem_of_empty in Hin|done].
  - intros b. rewrite Hb. split; [|by right].
    intros [Hin|?]; [by apply not_elem_of_empty in Hin|done].
  - rewrite Hp. split; [|by right]. intros [Hin|?]; [discriminate Hin|done].
  - intros l. rewrite Hl. split; [|by right].
    intros [Hin|?]; [by apply not_elem_of_empty in Hin|done].
  - unfold content_usage. by intros ->.
Qed.

End ScannerMore.

Lemma scan_content_is_union_witness :
  let content := py "<p>no script here</p>" in
  extract_hyperscript content = []
  ∧ ∃ usage,
      (scan_content (Scanner_init None None false) content (py "<string>")
         []).1 = Returned usage
      ∧ usage = FileUsage_empty ∧ FileUsage_bool usage = false.
Proof.
  cbv zeta.
  assert (extract_hyperscript (py "<p>no script here</p>") = []) as Hnone
    by (by vm_compute).
  split; [done|].
  destruct (scan_content_is_union (Scanner_init None None false)
              (py "<p>no script here</p>") (py "<string>") [])
    as (usage & Hrun & _ & _ & _ & _ & Hempty).
  exists usage. split; [done|]. by apply Hempty.
Defined.

Section ScannerConfig.

Context `{UnicodeDB}.

(** X4: a path is scanned exactly when its lower-cased suffix is an
    included extension and no exclude pattern occurs in the path. *)
Theorem should_scan_iff (self : Scanner) (fs : FileSystem) (path : pystr) :
  should_scan self fs path = true
  ↔ lower (fs_suffix fs path) ∈ include_extensions self
    ∧ ∀ pattern, pattern ∈ exclude_patterns self → ¬ occurs_in pattern path.
Proof.
  unfold should_scan. case_bool_decide as Hext; cbn [negb].
  - rewrite negb_true_iff, <- not_true_iff_false, existsb_exists. split.
    + intros Hno. split; [done|]. intros pattern Hin Hocc. apply Hno.
      exists pattern. split; [by apply list_elem_of_In|].
      by apply contains_occurs_in.
    + intros [_ Hall] (pattern & Hin & Hc).
      apply (Hall pattern); [by apply list_elem_of_In|].
      by apply contains_occurs_in.
  - split; [done|]. by intros [? _].
Qed.

(** X5: an empty exclude list selects the default patterns, as [None]
    does, so a path through node_modules is not scanned under either. *)
Theorem default_excludes_cannot_be_emptied (include : option (gset pystr))
    (debug : bool) (fs : FileSystem) (path : pystr) :
  occurs_in (py "node_modules") path →
  Scanner_init include (Some []) debug = Scanner_init include None debug
  ∧ should_scan (Scanner_init include (Some []) debug) fs path = false.
Proof.
  intros Hocc. split; [reflexivity|].
  unfold should_scan. destruct (negb _); [done|].
  rewrite negb_false_iff, existsb_exists. exists (py "node_modules").
  split; [|by apply contains_occurs_in].
  cbn [Scanner_init exclude_patterns]. apply list_elem_of_In. by_computation.
Qed.

Lemma block_names_valid :
  Forall (λ e : pystr * re, e.1 = py "unless" ∨ e.1 ∈ VALID_BLOCKS)
         BLOCK_PATTERNS.
Proof.
  unfold BLOCK_PATTERNS.
  repeat constructor; cbn [fst]; first [by left | right; by_computation].
Qed.

Lemma blocks_loop_valid (script : pystr) (table : list (pystr * re)) :
  Forall (λ e : pystr * re, e.1 = py "unless" ∨ e.1 ∈ VALID_BLOCKS) table →
  ∀ bs : gset pystr,
    bs ⊆ VALID_BLOCKS →
    foldl (λ bs '(block_name, pattern),
             if matched (search pattern script) then
               if bool_decide (block_name = py "unless")
               then bs ∪ {[py "if"]} else bs ∪ {[block_name]}
             else bs)
          bs table ⊆ VALID_BLOCKS.
Proof.
  assert (py "if" ∈ VALID_BLOCKS) as Hif by by_computation.
  induction 1 as [|[name pattern] table Hname _ IH]; intros bs Hbs; [done|].
  cbn [foldl]. apply IH.
  destruct (matched _); [|done]. case_bool_decide as Hun.
  - apply union_subseteq. split; [done|]. by apply singleton_subseteq_l.
  - apply union_subseteq. split; [done|]. apply singleton_subseteq_l.
    cbn [fst] in Hname. by destruct Hname.
Qed.

End ScannerConfig.

(** The path has an included suffix, so it is the exclude list that
    decides: with a list that is really empty it would be scanned. *)
Lemma default_excludes_cannot_be_emptied_witness :
  let path := py "web/node_modules/x.html" in
  let self := Scanner_init None (Some []) false in
  occurs_in (py "node_modules") path
  ∧ lower (fs_suffix demo_fs path) ∈ include_extensions self
  ∧ should_scan self demo_fs path = false
  ∧ should_scan (mkScanner (include_extensions self) [] false) demo_fs path
    = true.
Proof.
  cbv zeta.
  assert (occurs_in (py "node_modules") (py "web/node_modules/x.html")) as Hocc.
  { exists (py "web/"), (py "/x.html"). by vm_compute. }
  split; [done|]. split; [by_computation|]. split; [|by vm_compute].
  by apply (default_excludes_cannot_be_emptied None false demo_fs).
Defined.

Section ScannerRuns.

Context `{UnicodeDB} (fs : FileSystem).

(** What [scan_directory] returns holds, for each path, the truthy usage
    scanned for that path. *)
Lemma scan_directory_entries (self : Scanner) (directory : pystr)
    (out : list log_event) (results : gmap pystr FileUsage)
    (out' : list log_event) :
  scan_directory self fs directory out = (Returned results, out') →
  ∀ path usage, results !! path = Some usage →
    file_usage_of self fs path = Returned usage ∧ FileUsage_bool usage = true.
Proof.
  intros Hrun path usage Hp. unfold scan_directory in Hrun.
  destruct (negb (fs_exists fs directory)).
  - injection Hrun as <- _. by rewrite lookup_empty in Hp.
  - destruct (scan_loop_entries _ _ _ _ _ _ _ Hrun path usage Hp)
      as [Hold | Hnew]; [by rewrite lookup_empty in Hold | done].
Qed.

Lemma scan_directories_loop (self : Scanner) (directories : list pystr) :
  ∀ (results : gmap pystr FileUsage) out results' out',
    for_each directories
      (λ results directory,
         dir_results ←← scan_directory self fs directory;;
         ret (dir_results ∪ results))
      results out = (Returned results', out') →
    (∀ path usage, results !! path = Some usage →
       file_usage_of self fs path = Returned usage
       ∧ FileUsage_bool usage = true) →
    ∀ path usage, results' !! path = Some usage →
      file_usage_of self fs path = Returned usage
      ∧ FileUsage_bool usage = true.
Proof.
  induction directories as [|d directories IH];
    intros results out results' out' Hrun Hgood.
  - cbn in Hrun. by injection Hrun as <- _.
  - cbn [for_each] in Hrun. unfold bind at 1 2 in Hrun.
    destruct (scan_directory self fs d out) as [[dir_results|e] out1] eqn:Hd;
      [|done].
    unfold ret at 1 in Hrun. eapply IH; [exact Hrun|].
    intros path usage Hp.
    apply lookup_union_Some_raw in Hp as [Hp | [_ Hp]]; [|by apply Hgood].
    by eapply scan_directory_entries.
Qed.

(** X7: every usage in the mapping [scan_directories] returns is the
    truthy usage scanned for its path; when no directory exists the
    mapping is empty and nothing is printed. *)
Theorem scan_directories_entries (self : Scanner) (directories : list pystr)
    (out : list log_event) :
  (∀ results out',
     scan_directories self fs directories out = (Returned results, out') →
     ∀ path usage, results !! path = Some usage →
       file_usage_of self fs path = Returned usage
       ∧ FileUsage_bool usage = true)
  ∧ ((∀ d, d ∈ directories → fs_exists fs d = false) →
     scan_directories self fs directories out = (Returned ∅, out)).
Proof.
  split.
  - intros results out' Hrun. unfold scan_directories in Hrun.
    eapply scan_directories_loop; [exact Hrun|].
    intros path usage Hp. by rewrite lookup_empty in Hp.
  - unfold scan_directories. induction directories as [|d ds IH]; intros Hno.
    + reflexivity.
    + cbn [for_each]. unfold bind at 1 2, scan_directory at 1.
      rewrite (Hno d) by left. cbn [negb]. unfold ret at 1 2.
      rewrite (left_id_L ∅ (∪)). apply IH. intros d' Hd'. apply Hno. by right.
Qed.

(** Without [debug] nothing is printed. *)
Lemma scan_file_quiet (self : Scanner) (path : pystr) (out : list log_event) :
  debug self = false → (scan_file self fs path out).2 = out.
Proof.
  intros Hquiet. unfold scan_file, try_except, bind, lift.
  destruct (fs_read_text fs path) as [content|e].
  - unfold scan_content. cbv zeta. by rewrite Hquiet.
  - rewrite Hquiet. by destruct (is_Exception e).
Qed.

Lemma bind_run {A B} (m : M A) (k : A → M B) (out : list log_event) :
  bind m k out
  = match m out with
    | (Returned a, out') => k a out'
    | (Raised e, out') => (Raised e, out')
    end.
Proof. reflexivity. Qed.

Lemma ret_run {A} (a : A) (out : list log_event) :
  ret a out = (Returned a, out).
Proof. reflexivity. Qed.

Lemma scan_directory_quiet (self : Scanner) (directory : pystr)
    (out : list log_event) :
  debug self = false → (scan_directory self fs directory out).2 = out.
Proof.
  intros Hquiet. unfold scan_directory.
  destruct (negb (fs_exists fs directory)); [done|].
  generalize (∅ : gmap pystr FileUsage). revert out.
  induction (fs_rglob fs directory) as [|path paths IH]; intros out results;
    [done|].
  cbn [for_each]. rewrite bind_run.
  destruct (fs_is_file fs path && should_scan self fs path).
  - rewrite bind_run. pose proof (scan_file_quiet self path out Hquiet) as Q.
    destruct (scan_file self fs path out) as [[usage|e] out'];
      cbn [snd] in Q; subst out'; [|done].
    rewrite ret_run. apply IH.
  - rewrite ret_run. apply IH.
Qed.

(** X8: with [debug] off the scanner prints nothing: [scan_content],
    [scan_file], [scan_directory] and [scan_directories] leave the output
    as it was, whether they return or raise. *)
Theorem quiet_without_debug (self : Scanner) (content file_path path : pystr)
    (directory : pystr) (directories : list pystr) (out : list log_event) :
  debug self = false →
  (scan_content self content file_path out).2 = out
  ∧ (scan_file self fs path out).2 = out
  ∧ (scan_directory self fs directory out).2 = out
  ∧ (scan_directories self fs directories out).2 = out.
Proof.
  intros Hquiet. split_and!.
  - unfold scan_content. cbv zeta. by rewrite Hquiet.
  - by apply scan_file_quiet.
  - by apply scan_directory_quiet.
  - unfold scan_directories. generalize (∅ : gmap pystr FileUsage).
    revert out.
    induction directories as [|d directories IH]; intros out results; [done|].
    cbn [for_each]. rewrite bind_run, bind_run.
    pose proof (scan_directory_quiet self d out Hquiet) as Q.
    destruct (scan_directory self fs d out) as [[dir_results|e] out'];
      cbn [snd] in Q; subst out'; [|done].
    rewrite ret_run. apply IH.
Qed.

End ScannerRuns.

Lemma quiet_without_debug_witness :
  let self := Scanner_init None None false in
  debug self = false
  ∧ (scan_file self demo_fs (py "t/locked.html") []).2 = []
  ∧ (scan_directory self demo_fs (py "t") []).2 = []
  ∧ (scan_directories self demo_fs [py "t"; py "missing"] []).2 = [].
Proof.
  cbv zeta.
  destruct (quiet_without_debug demo_fs (Scanner_init None None false)
              [] [] (py "t/locked.html") (py "t") [py "t"; py "missing"] [])
    as (_ & Hfile & Hdir & Hdirs); [reflexivity|].
  by split_and!.
Defined.

Lemma scan_directories_entries_witness :
  let self := Scanner_init None None false in
  let results : gmap pystr FileUsage :=
    {[ py "t/en.html" := mkFileUsage {[py "toggle"]} ∅ false ∅ ]} in
  scan_directories self demo_fs [py "t"; py "missing"] []
  = (Returned results, [])
  ∧ (∀ path usage, results !! path = Some usage →
       file_usage_of self demo_fs path = Returned usage
       ∧ FileUsage_bool usage = true)
  ∧ (∀ d, d ∈ [py "missing"] → fs_exists demo_fs d = false)
  ∧ scan_directories self demo_fs [py "missing"] [] = (Returned ∅, []).
Proof.
  cbv zeta.
  assert (scan_directories (Scanner_init None None false) demo_fs
            [py "t"; py "missing"] []
          = (Returned {[ py "t/en.html" := mkFileUsage {[py "toggle"]} ∅ false ∅ ]},
             [])) as Hrun by (by vm_compute).
  assert (∀ d, d ∈ [py "missing"] → fs_exists demo_fs d = false) as Hmissing.
  { intros d Hd. apply list_elem_of_singleton in Hd as ->. by vm_compute. }
  split; [done|]. split; [|split; [done|]].
  - destruct (scan_directories_entries demo_fs (Scanner_init None None false)
                [py "t"; py "missing"] []) as [Hentries _].
    exact (Hentries _ _ Hrun).
  - destruct (scan_directories_entries demo_fs (Scanner_init None None false)
                [py "missing"] []) as [_ Hnone].
    exact (Hnone Hmissing).
Defined.

(** ** More on the regions *)

Section RegionsMore.

Lemma all_is_supported : rset "all" = list_to_set SUPPORTED_LANGUAGES.
Proof. reflexivity. Qed.

(** The seven entries of [REGIONS]. *)
Lemma region_entries (name : pystr) (codes : list pystr) :
  REGIONS !! name = Some codes →
  (name, codes) ∈ [(py "western", region "western");
                   (py "east-asian", region "east-asian");
                   (py "southeast-asian", region "southeast-asian");
                   (py "south-asian", region "south-asian");
                   (py "slavic", region "slavic");
                   (py "priority", region "priority");
                   (py "all", region "all")].
Proof.
  intros Hreg. unfold REGIONS in Hreg.
  apply elem_of_list_to_map_2 in Hreg.
  repeat (apply elem_of_cons in Hreg as [[= -> ->] | Hreg];
          [by_computation|]).
  by apply elem_of_nil in Hreg.
Qed.

Lemma region_sizes :
  length (region "east-asian") = 3%nat ∧ length (region "south-asian") = 2%nat
  ∧ length (region "slavic") = 3%nat
  ∧ length (region "southeast-asian") = 4%nat
  ∧ length (region "western") = 6%nat ∧ length (region "priority") = 13%nat
  ∧ length (region "all") = 22%nat.
Proof. repeat apply conj; by vm_compute. Qed.

(** The region selected for a set of languages includes them all, as
    long as the catch-all region does. *)
Lemma get_optimal_region_covers (languages : gset pystr) :
  languages ⊆ rset "all" →
  languages ⊆ region_codes (get_optimal_region languages).
Proof.
  intros Hall. rewrite get_optimal_region_select. unfold select_region_spec.
  destruct (decide (languages = ∅)) as [->|_]; [done|].
  unfold regions_in_order. cbn [find]. fold (rset "east-asian")
    (rset "south-asian") (rset "slavic") (rset "southeast-asian")
    (rset "western") (rset "priority").
  repeat case_bool_decide; by rewrite region_codes_named.
Qed.

(** X9: for a non-empty set of supported languages, and for any
    non-empty set for which another region than all is selected, the
    selected region includes every language of the set. *)
Theorem selected_region_covers (languages : gset pystr) :
  languages ≠ ∅ →
  (languages ⊆ list_to_set SUPPORTED_LANGUAGES →
   languages ⊆ region_codes (get_optimal_region languages))
  ∧ (get_optimal_region languages ≠ Some (py "all") →
     languages ⊆ region_codes (get_optimal_region languages)).
Proof.
  intros Hne. split; [apply get_optimal_region_covers|].
  rewrite get_optimal_region_select. unfold select_region_spec.
  destruct (decide (languages = ∅)) as [|_]; [done|].
  unfold regions_in_order. cbn [find]. fold (rset "east-asian")
    (rset "south-asian") (rset "slavic") (rset "southeast-asian")
    (rset "western") (rset "priority").
  repeat case_bool_decide; intros Hsel; try done;
    by rewrite region_codes_named.
Qed.

Lemma selected_region_covers_witness :
  ({[py "ja"; py "es"]} : gset pystr) ≠ ∅
  ∧ ({[py "ja"; py "es"]} : gset pystr) ⊆ list_to_set SUPPORTED_LANGUAGES
  ∧ ({[py "ja"; py "es"]} : gset pystr)
      ⊆ region_codes (get_optimal_region {[py "ja"; py "es"]}).
Proof.
  split; [by_computation|]. split; [by_computation|].
  apply (selected_region_covers {[py "ja"; py "es"]}); by_computation.
Defined.

(** X10: no region of [REGIONS] that includes every language of a
    non-empty set lists fewer codes than the selected region. *)
Theorem selected_region_is_smallest (languages : gset pystr)
    (name : pystr) (codes : list pystr) :
  languages ≠ ∅ →
  REGIONS !! name = Some codes →
  languages ⊆ list_to_set codes →
  ∃ selected, get_optimal_region languages = Some selected
              ∧ (length (REGIONS !!! selected) ≤ length codes)%nat.
Proof.
  intros Hne Hreg Hsub. apply region_entries in Hreg.
  rewrite get_optimal_region_select. unfold select_region_spec.
  destruct (decide (languages = ∅)) as [|_]; [done|].
  eexists. split; [reflexivity|].
  unfold regions_in_order. cbn [find].
  pose proof small_regions_disjoint as (?&?&?&?&?&?&?&?&?&?).
  pose proof priority_relations as (_&_&?&?).
  pose proof region_sizes as (Z1&Z2&Z3&Z4&Z5&Z6&Z7).
  pose proof (λ n, eq_refl : REGIONS !!! py n = region n) as Hlookup.
  unfold rset in *.
  repeat (apply elem_of_cons in Hreg as [Hreg | Hreg]);
    [..|by apply elem_of_nil in Hreg];
    injection Hreg as -> ->;
    repeat case_bool_decide; rewrite Hlookup;
    set (ea := region "east-asian") in *; clearbody ea;
    set (sa := region "south-asian") in *; clearbody sa;
    set (sl := region "slavic") in *; clearbody sl;
    set (sea := region "southeast-asian") in *; clearbody sea;
    set (we := region "western") in *; clearbody we;
    set (pri := region "priority") in *; clearbody pri;
    set (al := region "all") in *; clearbody al;
    first
    [ lia
    | done
    | exfalso;
      match goal with
      | HX : languages ⊆ ?X, HY : languages ⊆ ?Y, D : ?X ## ?Y |- _ =>
          exact (nonempty_in_disjoint languages X Y Hne HX HY D)
      | HX : languages ⊆ ?X, HY : languages ⊆ ?Y, D : ?Y ## ?X |- _ =>
          exact (nonempty_in_disjoint languages Y X Hne HY HX D)
      end ].
Qed.

Lemma selected_region_is_smallest_witness :
  ({[py "ja"]} : gset pystr) ≠ ∅
  ∧ REGIONS !! py "priority" = Some (region "priority")
  ∧ ({[py "ja"]} : gset pystr) ⊆ list_to_set (region "priority")
  ∧ ∃ selected, get_optimal_region {[py "ja"]} = Some selected
                ∧ (length (REGIONS !!! selected)
                   ≤ length (region "priority"))%nat.
Proof.
  split; [by_computation|]. split; [by vm_compute|].
  split; [by_computation|].
  apply (selected_region_is_smallest {[py "ja"]} (py "priority"));
    [by_computation | by vm_compute | by_computation].
Defined.

End RegionsMore.

(** ** More on the aggregator *)

Section AggregatorMore.

Implicit Types (self : Aggregator) (table : gmap pystr FileUsage).
Implicit Types (path : pystr) (usage : FileUsage).

Lemma get_usage_consistent self :
  cache_consistent self →
  cache_consistent (get_usage self).2
  ∧ (get_usage self).1 = aggregate (_file_usage self)
  ∧ _file_usage (get_usage self).2 = _file_usage self.
Proof.
  unfold cache_consistent, get_usage.
  destruct (_cached_usage self) as [cached|] eqn:E; cbn; [|done].
  intros ->. by rewrite E.
Qed.

(** Every state an aggregator goes through has a cache that is absent
    or up to date. *)
Lemma reachable_consistent self : reachable self → cache_consistent self.
Proof.
  induction 1 as [|self path usage _ IH|self path _ IH|self _ IH
                  |self m _ IH|self _ IH|self _ IH|self _ IH]; try done.
  - by destruct (add_shape self path usage) as [-> | ->].
  - unfold remove. by case_bool_decide.
  - by apply get_usage_consistent.
  - unfold has_usage. destruct (get_usage self) as [u s'] eqn:E.
    change s' with ((u, s').2). rewrite <- E. by apply get_usage_consistent.
  - unfold get_summary. destruct (get_usage self) as [u s'] eqn:E.
    change s' with ((u, s').2). rewrite <- E. by apply get_usage_consistent.
Qed.

(** X11: in every state reached from a fresh aggregator by its methods,
    [get_usage] returns what recomputation from the file table yields,
    never a stale snapshot, and a second call returns the same
    snapshot. *)
Theorem reachable_get_usage_fresh self :
  reachable self →
  (get_usage self).1 = aggregate (_file_usage self)
  ∧ recomputed (_file_usage self) (get_usage self).1
  ∧ get_usage (get_usage self).2 = get_usage self.
Proof.
  intros Hr%reachable_consistent.
  destruct (get_usage_consistent self Hr) as (_ & Hu & _).
  split_and!; [done| |].
  - rewrite Hu. apply aggregate_recomputed.
  - unfold get_usage.
    destruct (_cached_usage self) as [cached|] eqn:E; cbn; [|done].
    by rewrite E.
Qed.

Lemma reachable_get_usage_fresh_witness :
  let self :=
    (add (get_usage (add init (py "a.html")
                       (mkFileUsage {[py "toggle"]} ∅ false ∅)).2).2
         (py "b.html") (mkFileUsage ∅ {[py "if"]} true ∅)).2 in
  reachable self
  ∧ (get_usage self).1 = aggregate (_file_usage self).
Proof.
  cbv zeta.
  assert (reachable
    (add (get_usage (add init (py "a.html")
                       (mkFileUsage {[py "toggle"]} ∅ false ∅)).2).2
         (py "b.html") (mkFileUsage ∅ {[py "if"]} true ∅)).2) as Hr.
  { apply reach_add, reach_get_usage, reach_add, reach_init. }
  split; [done|]. by apply (reachable_get_usage_fresh _ Hr).
Defined.

Lemma set_bool_true_iff (s : gset pystr) : set_bool s = true ↔ ∃ x, x ∈ s.
Proof.
  unfold set_bool. rewrite bool_decide_eq_true. split.
  - apply set_choose_L.
  - intros [x Hx] ->. by apply not_elem_of_empty in Hx.
Qed.

Lemma has_usage_truthy_entry self :
  cache_consistent self →
  (has_usage self).1 = true
  ↔ ∃ path usage, _file_usage self !! path = Some usage
                  ∧ FileUsage_bool usage = true.
Proof.
  intros Hr.
  destruct (get_usage_consistent self Hr) as (_ & Hu & _).
  unfold has_usage. destruct (get_usage self) as [u s'] eqn:E.
  cbn [fst] in *. subst u.
  destruct (aggregate_recomputed (_file_usage self)) as (Hc & Hb & Hp & _).
  assert ((if set_bool (agg_commands (aggregate (_file_usage self)))
           then true
           else if set_bool (agg_blocks (aggregate (_file_usage self)))
                then true
                else agg_positional (aggregate (_file_usage self))) = true
          ↔ (∃ c, c ∈ agg_commands (aggregate (_file_usage self)))
            ∨ (∃ b, b ∈ agg_blocks (aggregate (_file_usage self)))
            ∨ agg_positional (aggregate (_file_usage self)) = true) as ->.
  { rewrite <- !set_bool_true_iff.
    destruct (set_bool (agg_commands _)), (set_bool (agg_blocks _));
      naive_solver. }
  rewrite Hp. split.
  - intros [[c (p & f & Hf & Hin)%Hc] | [[b (p & f & Hf & Hin)%Hb]
           | (p & f & Hf & Hpos)]];
      exists p, f; (split; [done|]); apply FileUsage_truthy_iff.
    + left. intros Hempty. rewrite Hempty in Hin.
      by apply not_elem_of_empty in Hin.
    + right. left. intros Hempty. rewrite Hempty in Hin.
      by apply not_elem_of_empty in Hin.
    + by right; right.
  - intros (p & f & Hf & [Hne | [Hne | Hpos]]%FileUsage_truthy_iff).
    + left. apply set_choose_L in Hne as [c Hin]. exists c. apply Hc. eauto.
    + right; left. apply set_choose_L in Hne as [b Hin]. exists b.
      apply Hb. eauto.
    + right; right. eauto.
Qed.

(** X12: in a reached state [has_usage] is true exactly when some tracked
    file has a truthy usage; detected languages do not count. *)
Theorem has_usage_iff self :
  reachable self →
  (has_usage self).1 = true
  ↔ ∃ path usage, _file_usage self !! path = Some usage
                  ∧ FileUsage_bool usage = true.
Proof.
  intros Hr. apply has_usage_truthy_entry. by apply reachable_consistent.
Qed.

Lemma has_usage_iff_witness :
  let self := (add init (py "a.html") (mkFileUsage ∅ ∅ false {[py "ja"]})).2 in
  reachable self
  ∧ ((has_usage self).1 = true
     ↔ ∃ path usage, _file_usage self !! path = Some usage
                     ∧ FileUsage_bool usage = true).
Proof.
  cbv zeta.
  assert (reachable (add init (py "a.html")
                       (mkFileUsage ∅ ∅ false {[py "ja"]})).2) as Hr.
  { apply reach_add, reach_init. }
  split; [done|]. by apply (has_usage_iff _ Hr).
Defined.

(** X13: [remove] answers whether the path was tracked; afterwards the
    path is untracked and every other path keeps its usage; removing an
    untracked path changes nothing, the cache included. *)
Theorem remove_spec self path :
  ((remove self path).1 = true ↔ is_Some (_file_usage self !! path))
  ∧ _file_usage (remove self path).2 !! path = None
  ∧ (∀ other, other ≠ path →
       _file_usage (remove self path).2 !! other = _file_usage self !! other)
  ∧ (_file_usage self !! path = None → remove self path = (false, self)).
Proof.
  unfold remove. case_bool_decide as Hdom; rewrite elem_of_dom in Hdom; cbn.
  - split_and!; [done| apply lookup_delete_eq | |].
    + intros other Hne. by apply lookup_delete_ne.
    + intros Hnone. rewrite Hnone in Hdom. by destruct Hdom.
  - apply eq_None_not_Some in Hdom. split_and!; try done.
    split; [done|]. rewrite Hdom. by intros [? ?].
Qed.

(** X14: adding an untracked path and removing it again restores the file
    table. *)
Theorem add_then_remove self path usage :
  _file_usage self !! path = None →
  (add self path usage).1 = true
  ∧ (remove (add self path usage).2 path).1 = true
  ∧ _file_usage (remove (add self path usage).2 path).2 = _file_usage self.
Proof.
  intros Hnone. unfold add. rewrite Hnone. cbn [fst snd].
  unfold remove. cbn [_file_usage].
  rewrite bool_decide_eq_true_2; cbn.
  - split_and!; [done..|]. by apply delete_insert_id.
  - apply elem_of_dom. rewrite lookup_insert_eq. eauto.
Qed.

Lemma add_then_remove_witness :
  _file_usage init !! py "a.html" = None
  ∧ _file_usage (remove (add init (py "a.html") FileUsage_empty).2
                   (py "a.html")).2 = _file_usage init.
Proof.
  split; [by vm_compute|].
  by apply (add_then_remove init (py "a.html") FileUsage_empty).
Defined.

(** X15: the file count grows by one when an untracked path is added and
    stays when a tracked one is; it shrinks by one when a tracked path
    is removed; it is zero after [clear] and the size of the mapping
    after [load_from_scan]. *)
Theorem file_count_changes self path usage
    (scanned_files : gmap pystr FileUsage) :
  get_file_count (add self path usage).2
  = match _file_usage self !! path with
    | Some _ => get_file_count self
    | None => S (get_file_count self)
    end
  ∧ get_file_count (remove self path).2
    = match _file_usage self !! path with
      | Some _ => pred (get_file_count self)
      | None => get_file_count self
      end
  ∧ get_file_count (clear self) = 0%nat
  ∧ get_file_count (load_from_scan self scanned_files) = size scanned_files.
Proof.
  unfold get_file_count. split_and!.
  - destruct (add_shape self path usage) as [E | E]; rewrite E; cbn.
    + unfold add in E. destruct (_file_usage self !! path); [done|].
      discriminate E.
    + rewrite map_size_insert. by destruct (_file_usage self !! path).
  - unfold remove. case_bool_decide as Hdom; rewrite elem_of_dom in Hdom; cbn.
    + rewrite map_size_delete. by destruct Hdom as [? ->].
    + apply eq_None_not_Some in Hdom. by rewrite Hdom.
  - cbn. apply map_size_empty.
  - done.
Qed.

(** X16: in a reached state [get_summary] builds the dictionary that
    [to_dict] builds from the snapshot of [get_usage], and its file
    count is the number of tracked files. *)
Theorem get_summary_is_to_dict self :
  reachable self →
  (get_summary self).1 = AggregatedUsage_to_dict (get_usage self).1
  ∧ s_file_count (get_summary self).1 = get_file_count self
  ∧ (get_summary self).2 = (get_usage self).2.
Proof.
  intros Hr%reachable_consistent.
  destruct (get_usage_consistent self Hr) as (_ & Hu & Ht).
  unfold get_summary, AggregatedUsage_to_dict, get_file_count.
  destruct (get_usage self) as [u s'] eqn:E. cbn [fst snd] in *.
  destruct (aggregate_recomputed (_file_usage self)) as (_&_&_&_&Hfile).
  rewrite Ht. split_and!; [|done..]. f_equal. by rewrite Hu, Hfile.
Qed.

Lemma get_summary_is_to_dict_witness :
  let self := (add init (py "a.html") (mkFileUsage {[py "toggle"]} ∅ false ∅)).2 in
  reachable self
  ∧ s_file_count (get_summary self).1 = get_file_count self.
Proof.
  cbv zeta.
  assert (reachable (add init (py "a.html")
                       (mkFileUsage {[py "toggle"]} ∅ false ∅)).2) as Hr.
  { apply reach_add, reach_init. }
  split; [done|]. by apply (get_summary_is_to_dict _ Hr).
Defined.

(** X17: when [add] answers [True], the next [get_usage] records the new
    usage for the path and its aggregate includes what that usage
    holds. *)
Theorem add_then_get_usage self path usage :
  (add self path usage).1 = true →
  let snapshot := (get_usage (add self path usage).2).1 in
  agg_file_usage snapshot !! path = Some usage
  ∧ commands usage ⊆ agg_commands snapshot
  ∧ blocks usage ⊆ agg_blocks snapshot
  ∧ detected_languages usage ⊆ agg_detected_languages snapshot
  ∧ (positional usage = true → agg_positional snapshot = true).
Proof.
  intros Htrue. cbv zeta.
  destruct (add_true_invalidates self path usage Htrue) as [Hcache Hp].
  unfold get_usage. rewrite Hcache. cbn [fst].
  destruct (aggregate_recomputed (_file_usage (add self path usage).2))
    as (Hc & Hb & Hpos & Hl & Hfile).
  split_and!.
  - by rewrite Hfile.
  - intros c Hin. apply Hc. eauto.
  - intros b Hin. apply Hb. eauto.
  - intros l Hin. apply Hl. eauto.
  - intros Hposu. apply Hpos. eauto.
Qed.

Lemma add_then_get_usage_witness :
  let usage := mkFileUsage {[py "toggle"]} ∅ true {[py "ja"]} in
  (add init (py "a.html") usage).1 = true
  ∧ agg_file_usage (get_usage (add init (py "a.html") usage).2).1
      !! py "a.html" = Some usage.
Proof.
  cbv zeta. split; [by vm_compute|].
  by apply (add_then_get_usage init (py "a.html")
              (mkFileUsage {[py "toggle"]} ∅ true {[py "ja"]})).
Defined.

(** X25: [add] answers [False] exactly when the path is tracked with a
    truthy usage that has the commands, the blocks and the positional
    flag of the new one, and then changes nothing; otherwise it stores
    the new usage for the path, leaves the other paths alone and drops
    the cache. *)
Theorem add_contract self path usage :
  ((add self path usage).1 = false
   ↔ ∃ e, _file_usage self !! path = Some e
          ∧ FileUsage_bool e = true
          ∧ commands e = commands usage
          ∧ blocks e = blocks usage
          ∧ positional e = positional usage)
  ∧ ((add self path usage).1 = false → (add self path usage).2 = self)
  ∧ ((add self path usage).1 = true →
     _file_usage (add self path usage).2 = <[path := usage]> (_file_usage self)
     ∧ _cached_usage (add self path usage).2 = None).
Proof.
  split_and!.
  - rewrite <- not_true_iff_false, add_returns_true_iff. split.
    + intros Hnot. destruct (_file_usage self !! path) as [e|] eqn:E;
        [|by destruct Hnot; left].
      exists e. split; [done|].
      destruct (FileUsage_bool e) eqn:Eb;
        [|destruct Hnot; right; exists e; by auto].
      split; [done|].
      split_and!; apply dec_stable; intros Hne; apply Hnot; right; exists e;
        by auto.
    + intros (e & He & Hb & Hc & Hbl & Hp) [Hnone | (e' & He' & Hd)].
      * by rewrite He in Hnone.
      * rewrite He in He'. injection He' as <-.
        destruct Hd as [Hd | [Hd | [Hd | Hd]]]; [by rewrite Hb in Hd|done..].
  - by destruct (add_shape self path usage) as [-> | ->].
  - by destruct (add_shape self path usage) as [-> | ->].
Qed.

Lemma add_contract_witness :
  let usage := mkFileUsage {[py "toggle"]} ∅ false ∅ in
  let self := (add init (py "a.html") usage).2 in
  (add self (py "a.html") usage).1 = false
  ∧ (add self (py "a.html") usage).2 = self
  ∧ (add self (py "b.html") usage).1 = true
  ∧ _cached_usage (add self (py "b.html") usage).2 = None.
Proof.
  cbv zeta.
  assert ((add (add init (py "a.html") (mkFileUsage {[py "toggle"]} ∅ false ∅)).2
             (py "a.html") (mkFileUsage {[py "toggle"]} ∅ false ∅)).1 = false)
    as Hsame by (by vm_compute).
  assert ((add (add init (py "a.html") (mkFileUsage {[py "toggle"]} ∅ false ∅)).2
             (py "b.html") (mkFileUsage {[py "toggle"]} ∅ false ∅)).1 = true)
    as Hnew by (by vm_compute).
  split; [done|]. split; [|split; [done|]].
  - by apply add_contract.
  - by apply add_contract.
Defined.

End AggregatorMore.

Lemma remove_spec_witness :
  let self := (add (add init (py "a.html")
                      (mkFileUsage {[py "toggle"]} ∅ false ∅)).2
                 (py "b.html") (mkFileUsage ∅ {[py "if"]} false ∅)).2 in
  py "b.html" ≠ py "a.html"
  ∧ _file_usage (remove self (py "a.html")).2 !! py "b.html"
    = _file_usage self !! py "b.html"
  ∧ _file_usage self !! py "c.html" = None
  ∧ remove self (py "c.html") = (false, self).
Proof.
  cbv zeta.
  assert (py "b.html" ≠ py "a.html") as Hne by by_computation.
  split; [done|]. split; [|split; [by vm_compute|]].
  - by apply (remove_spec _ (py "a.html")).
  - apply (remove_spec _ (py "c.html")). by vm_compute.
Defined.

(** ** From a scan to the aggregator *)

Section ScanToAggregator.

Context `{UnicodeDB} (scanner : Scanner) (fs : FileSystem).

(** X26: once the mapping [scan_directory] returned is loaded into an
    aggregator, whatever it tracked before, [has_usage] is true exactly
    when the mapping is not empty, and the file count is the number of
    files the scan kept. *)
Theorem scanned_project_has_usage (self : Aggregator) (directory : pystr)
    (out out' : list log_event) (results : gmap pystr FileUsage) :
  scan_directory scanner fs directory out = (Returned results, out') →
  ((has_usage (load_from_scan self results)).1 = true ↔ results ≠ ∅)
  ∧ get_file_count (load_from_scan self results) = size results
  ∧ agg_file_usage (get_usage (load_from_scan self results)).1 = results.
Proof.
  intros Hscan. split_and!.
  - rewrite has_usage_truthy_entry; [|done].
    cbn [load_from_scan _file_usage]. split.
    + intros (path & usage & Hp & _) ->. by rewrite lookup_empty in Hp.
    + intros (path & usage & Hp)%map_choose. exists path, usage.
      split; [done|].
      by destruct (scan_directory_entries fs scanner directory out results
                     out' Hscan path usage Hp).
  - done.
  - cbn [load_from_scan get_usage _cached_usage _file_usage fst].
    by destruct (aggregate_recomputed results) as (_&_&_&_&->).
Qed.

End ScanToAggregator.

Lemma scanned_project_has_usage_witness :
  let scanner := Scanner_init None None false in
  let results : gmap pystr FileUsage :=
    {[ py "t/en.html" := mkFileUsage {[py "toggle"]} ∅ false ∅ ]} in
  scan_directory scanner demo_fs (py "t") [] = (Returned results, [])
  ∧ ((has_usage (load_from_scan init results)).1 = true ↔ results ≠ ∅)
  ∧ get_file_count (load_from_scan init results) = size results.
Proof.
  cbv zeta.
  assert (scan_directory (Scanner_init None None false) demo_fs (py "t") []
          = (Returned {[ py "t/en.html" := mkFileUsage {[py "toggle"]} ∅ false ∅ ]},
             [])) as Hrun by (by vm_compute).
  split; [done|].
  destruct (scanned_project_has_usage (Scanner_init None None false) demo_fs
              init (py "t") [] [] _ Hrun) as (Hhas & Hcount & _).
  by split.
Defined.


(** ** Sorted output *)

Section SortedOutput.

Lemma str_le_total (a b : pystr) : str_le a b = true ∨ str_le b a = true.
Proof.
  revert b. induction a as [|x a IH]; intros [|y b]; cbn; auto.
  destruct (N.ltb_spec x y), (N.ltb_spec y x); auto; lia.
Qed.

Lemma str_le_trans (a b c : pystr) :
  str_le a b = true → str_le b c = true → str_le a c = true.
Proof.
  revert b c. induction a as [|x a IH]; intros [|y b] [|z c]; cbn; try done.
  destruct (N.ltb_spec x y), (N.ltb_spec y x), (N.ltb_spec y z),
    (N.ltb_spec z y), (N.ltb_spec x z), (N.ltb_spec z x);
    try done; try lia.
  apply IH.
Qed.

Lemma str_le_antisym (a b : pystr) :
  str_le a b = true → str_le b a = true → a = b.
Proof.
  revert b. induction a as [|x a IH]; intros [|y b]; cbn; try done.
  destruct (N.ltb_spec x y), (N.ltb_spec y x); try done; try lia.
  intros Hab Hba. f_equal; [lia|by apply IH].
Qed.

(** [sorted] of a set lists each element once, in ascending order. *)
Lemma py_sorted_spec (s : gset pystr) :
  StronglySorted str_before (py_sorted s)
  ∧ NoDup (py_sorted s)
  ∧ (∀ x, x ∈ py_sorted s ↔ x ∈ s)
  ∧ length (py_sorted s) = size s
  ∧ list_to_set (py_sorted s) = s.
Proof.
  unfold py_sorted.
  pose proof (merge_sort_Permutation str_before (elements s)) as Hperm.
  assert (Total str_before) as Htotal by (intros a b; apply str_le_total).
  assert (Transitive str_before) as Htrans
    by (intros a b c; apply str_le_trans).
  split_and!.
  - apply (StronglySorted_merge_sort _).
  - rewrite Hperm. apply NoDup_elements.
  - intros x. rewrite Hperm. apply elem_of_elements.
  - by rewrite Hperm.
  - apply set_eq. intros x. rewrite elem_of_list_to_set, Hperm.
    apply elem_of_elements.
Qed.

(** X18: [get_files] lists every tracked path exactly once, in ascending
    order of code points, and as many paths as [get_file_count]
    counts. *)
Theorem get_files_sorted (self : Aggregator) :
  StronglySorted str_before (get_files self)
  ∧ NoDup (get_files self)
  ∧ (∀ path, path ∈ get_files self ↔ is_Some (_file_usage self !! path))
  ∧ length (get_files self) = get_file_count self.
Proof.
  unfold get_files, get_file_count.
  destruct (py_sorted_spec (dom (_file_usage self))) as (Hs & Hn & He & Hl & _).
  split_and!; [done..| |].
  - intros path. by rewrite He, elem_of_dom.
  - by rewrite Hl, size_dom.
Qed.

(** X19: the dictionary of [to_dict] loses nothing: each list holds the
    elements of its set once, in ascending order, so the sets are
    recovered from the lists, and usages with equal dictionaries are
    equal. *)
Theorem FileUsage_to_dict_faithful (u : FileUsage) :
  let d := FileUsage_to_dict u in
  (StronglySorted str_before (d_commands d) ∧ NoDup (d_commands d))
  ∧ (StronglySorted str_before (d_blocks d) ∧ NoDup (d_blocks d))
  ∧ (StronglySorted str_before (d_detected_languages d)
     ∧ NoDup (d_detected_languages d))
  ∧ mkFileUsage (list_to_set (d_commands d)) (list_to_set (d_blocks d))
      (d_positional d) (list_to_set (d_detected_languages d)) = u
  ∧ ∀ u', FileUsage_to_dict u' = d ↔ u' = u.
Proof.
  cbv zeta. unfold FileUsage_to_dict.
  cbn [d_commands d_blocks d_positional d_detected_languages].
  destruct (py_sorted_spec (commands u)) as (Sc & Nc & _ & _ & Ec).
  destruct (py_sorted_spec (blocks u)) as (Sb & Nb & _ & _ & Eb).
  destruct (py_sorted_spec (detected_languages u)) as (Sl & Nl & _ & _ & El).
  split_and!; try done.
  - rewrite Ec, Eb, El. by destruct u.
  - intros u'. split; [|by intros ->].
    intros [= Hc Hb Hp Hl].
    destruct u as [c b p l], u' as [c' b' p' l']. cbn in *.
    destruct (py_sorted_spec c') as (_ & _ & _ & _ & <-).
    destruct (py_sorted_spec b') as (_ & _ & _ & _ & <-).
    destruct (py_sorted_spec l') as (_ & _ & _ & _ & <-).
    by rewrite Hc, Hb, Hp, Hl, Ec, Eb, El.
Qed.

End SortedOutput.

(** ** From detection to regions *)

Section DetectedRegions.

Context `{UnicodeDB}.

Lemma language_keys_supported :
  Forall (λ lang, lang ∈ SUPPORTED_LANGUAGES) (LANGUAGE_KEYWORDS.*1).
Proof. by_computation. Qed.

Lemma detect_languages_supported (script : pystr) :
  detect_languages script ⊆ list_to_set SUPPORTED_LANGUAGES.
Proof.
  intros lang (keywords & Hin & _)%detect_languages_elem.
  apply elem_of_list_to_set.
  pose proof language_keys_supported as Hall.
  rewrite Forall_forall in Hall. apply Hall.
  apply list_elem_of_fmap. by exists (lang, keywords).
Qed.

Lemma analyze_script_languages (script : pystr) :
  detected_languages (analyze_script script) = detect_languages script.
Proof.
  unfold analyze_script. generalize (detect_languages script).
  intros detected. reflexivity.
Qed.

Lemma content_languages_supported (content : pystr) :
  detected_languages (content_usage content)
  ⊆ list_to_set SUPPORTED_LANGUAGES.
Proof.
  unfold content_usage. intros lang Hin.
  destruct (merge_loop_fields analyze_script (extract_hyperscript content)
              FileUsage_empty) as (_ & _ & _ & Hl).
  cbn zeta in Hl.
  apply Hl in Hin as [Hin | (script & _ & Hin)].
  - by apply not_elem_of_empty in Hin.
  - rewrite analyze_script_languages in Hin.
    exact (detect_languages_supported script lang Hin).
Qed.

(** X20: the languages detected in a script, and those [scan_content]
    gathers from a content, are supported ones, and the region selected
    for them includes each of them; no region is selected exactly when
    no language was detected. *)
Theorem detected_languages_region (self : Scanner) (content file_path : pystr)
    (out : list log_event) (script : pystr) :
  (detect_languages script ⊆ list_to_set SUPPORTED_LANGUAGES
   ∧ detect_languages script
       ⊆ region_codes (get_optimal_region (detect_languages script))
   ∧ (get_optimal_region (detect_languages script) = None
      ↔ detect_languages script = ∅))
  ∧ ∃ usage,
      (scan_content self content file_path out).1 = Returned usage
      ∧ detected_languages usage ⊆ list_to_set SUPPORTED_LANGUAGES
      ∧ detected_languages usage
          ⊆ region_codes (get_optimal_region (detected_languages usage))
      ∧ (get_optimal_region (detected_languages usage) = None
         ↔ detected_languages usage = ∅).
Proof.
  assert (∀ languages : gset pystr,
            get_optimal_region languages = None ↔ languages = ∅) as Hnone.
  { intros languages. rewrite get_optimal_region_select.
    unfold select_region_spec. by destruct (decide (languages = ∅)). }
  split.
  - pose proof (detect_languages_supported script) as Hsup.
    split_and!; [done| |apply Hnone].
    by apply get_optimal_region_covers.
  - exists (content_usage content).
    pose proof (content_languages_supported content) as Hsup.
    split_and!; [apply scan_content_usage|done| |apply Hnone].
    by apply get_optimal_region_covers.
Qed.

End DetectedRegions.

(** ** What is not caught *)

Section NotCaught.

Context `{UnicodeDB}.
Context (self : Scanner) (fs : FileSystem).

Lemma scan_file_raises (path : pystr) (e : py_exception)
    (out : list log_event) :
  fs_read_text fs path = Raised e →
  is_Exception e = false →
  scan_file self fs path out = (Raised e, out).
Proof.
  intros Hread He. unfold scan_file, try_except, bind, lift.
  by rewrite Hread, He.
Qed.

Lemma scan_loop_raises (path : pystr) (e : py_exception)
    (after : list pystr) :
  fs_is_file fs path = true → should_scan self fs path = true →
  fs_read_text fs path = Raised e → is_Exception e = false →
  ∀ (before : list pystr) (results : gmap pystr FileUsage)
    (out : list log_event),
    (∀ p e', p ∈ before → fs_read_text fs p = Raised e' →
             is_Exception e' = true) →
    ∃ out',
      for_each (before ++ path :: after)
        (λ results path,
           if fs_is_file fs path && should_scan self fs path then
             usage ←← scan_file self fs path;;
             ret (if FileUsage_bool usage then <[path := usage]> results
                  else results)
           else ret results)
        results out = (Raised e, out').
Proof.
  intros Hfile Hscan Hread He.
  induction before as [|p before IH]; intros results out Hbefore.
  - cbn [app for_each]. rewrite bind_run, Hfile, Hscan. cbn [andb].
    rewrite bind_run, (scan_file_raises path e out Hread He). eauto.
  - cbn [app for_each]. rewrite bind_run.
    assert (∀ p' e', p' ∈ before → fs_read_text fs p' = Raised e' →
                     is_Exception e' = true) as Hrest.
    { intros p' e' Hin. apply Hbefore. by right. }
    destruct (fs_is_file fs p && should_scan self fs p).
    + rewrite bind_run.
      destruct (scan_file_returns self fs p out) as (usage & out' & ->).
      { intros e'. apply Hbefore. by left. }
      rewrite ret_run. by apply IH.
    + rewrite ret_run. by apply IH.
Qed.

(** X21: a read that fails with something that is not an [Exception],
    as an interrupt, is not caught: [scan_file] raises it, and so does
    [scan_directory] at the first such file it scans, returning no
    mapping. *)
Theorem interrupt_is_not_caught (directory path : pystr)
    (before after : list pystr) (e : py_exception) (out : list log_event) :
  fs_read_text fs path = Raised e →
  is_Exception e = false →
  (scan_file self fs path out).1 = Raised e
  ∧ (fs_exists fs directory = true →
     fs_rglob fs directory = before ++ path :: after →
     (∀ p e', p ∈ before → fs_read_text fs p = Raised e' →
              is_Exception e' = true) →
     fs_is_file fs path = true → should_scan self fs path = true →
     (scan_directory self fs directory out).1 = Raised e).
Proof.
  intros Hread He. split.
  - by rewrite (scan_file_raises path e out Hread He).
  - intros Hex Hglob Hbefore Hfile Hscan.
    unfold scan_directory. rewrite Hex, Hglob. cbn [negb].
    destruct (scan_loop_raises path e after Hfile Hscan Hread He
                before ∅ out Hbefore) as (out' & ->).
    done.
Qed.

End NotCaught.

Lemma interrupt_is_not_caught_witness :
  let fs := {| fs_exists := λ _, true;
               fs_is_file := λ _, true;
               fs_rglob := λ _, [py "t/a.html"; py "t/b.html"];
               fs_read_text := λ path,
                 if bool_decide (path = py "t/a.html")
                 then Returned (py "<p _='on click toggle .x'>")
                 else Raised KeyboardInterrupt;
               fs_suffix := λ _, py ".html" |} in
  let self := Scanner_init None None false in
  fs_read_text fs (py "t/b.html") = Raised KeyboardInterrupt
  ∧ is_Exception KeyboardInterrupt = false
  ∧ (scan_file self fs (py "t/b.html") []).1 = Raised KeyboardInterrupt
  ∧ (scan_directory self fs (py "t") []).1 = Raised KeyboardInterrupt.
Proof.
  cbv zeta. split; [by vm_compute|]. split; [done|].
  split.
  - eapply (interrupt_is_not_caught _ _ (py "t") (py "t/b.html")
              [py "t/a.html"] [] KeyboardInterrupt []); by vm_compute.
  - eapply (interrupt_is_not_caught _ _ (py "t") (py "t/b.html")
              [py "t/a.html"] [] KeyboardInterrupt []); try by vm_compute.
    intros p e' Hin.
    apply elem_of_cons in Hin as [->|Hin]; [|by apply elem_of_nil in Hin].
    by vm_compute.
Defined.

(** ** Words of a script *)

Section Words.

Context `{UnicodeDB}.

(** A literal under [re.IGNORECASE] matches in one way each spelling of
    it the subject starts with. *)
Lemma rmatch_lit_i (k : pystr) (st st' : mstate) :
  st' ∈ rmatch (lit_i k) st
  ↔ ∃ w, spells k w ∧ m_rest st = w ++ m_rest st'
         ∧ m_prev st' = last_of (m_prev st) w
         ∧ m_group st' = m_group st.
Proof.
  unfold lit_i, spells. revert st. induction k as [|p k IH]; intros st.
  - cbn [fmap list_fmap seq_of rmatch]. rewrite list_elem_of_singleton. split.
    + intros ->. exists []. split_and!; [constructor|done..].
    + intros (w & Hall & Hw & Hp & Hg). apply Forall2_nil_inv_l in Hall as ->.
      destruct st, st'. cbn in *. by subst.
  - cbn [fmap list_fmap seq_of rmatch compose]. rewrite list_elem_of_bind.
    split.
    + intros (st1 & Hin & H1).
      destruct (m_rest st) as [|x xs] eqn:E; [by apply elem_of_nil in H1|].
      destruct (ch_i p x) eqn:Ec; [|by apply elem_of_nil in H1].
      apply list_elem_of_singleton in H1 as ->.
      apply IH in Hin as (w & Hall & Hw & Hp & Hg).
      cbn [m_rest m_prev m_group] in *.
      exists (x :: w). split_and!; [by constructor|by rewrite Hw| |done].
      by rewrite <- (last_of_cons (m_prev st)).
    + intros (w & Hall & Hw & Hp & Hg).
      apply Forall2_cons_inv_l in Hall as (x & w' & Hc & Hall & ->).
      cbn [app] in Hw. rewrite Hw, Hc.
      exists (MState (Some x) (w' ++ m_rest st') (m_group st)).
      split; [|by apply list_elem_of_singleton].
      apply IH. exists w'. cbn [m_rest m_prev m_group].
      split_and!; [done..| |done]. by rewrite (last_of_cons (m_prev st)).
Qed.

Lemma rmatch_alt_of (rs : list re) (r : re) (st st' : mstate) :
  st' ∈ rmatch (alt_of r rs) st ↔ ∃ r', r' ∈ r :: rs ∧ st' ∈ rmatch r' st.
Proof.
  revert r. induction rs as [|r1 rs IH]; intros r; cbn [alt_of].
  - split; [intros ?; exists r; split; [left|done]|].
    intros (r' & Hr' & Hin). by apply list_elem_of_singleton in Hr' as ->.
  - cbn [rmatch]. rewrite elem_of_app, IH. split.
    + intros [Hin | (r' & Hr' & Hin)].
      * exists r. split; [left|done].
      * exists r'. split; [by right|done].
    + intros (r' & Hr' & Hin).
      apply elem_of_cons in Hr' as [-> | Hr']; [by left|right; eauto].
Qed.

(** The alternatives of a list of names, each under [re.IGNORECASE]. *)
Lemma rmatch_names (n0 : string) (ns : list string) (st st' : mstate) :
  st' ∈ rmatch (alt_of (lit_i (py n0)) (lit_i ∘ py <$> ns)) st
  ↔ ∃ name w, name ∈ n0 :: ns ∧ spells (py name) w
              ∧ m_rest st = w ++ m_rest st'
              ∧ m_prev st' = last_of (m_prev st) w
              ∧ m_group st' = m_group st.
Proof.
  rewrite rmatch_alt_of. split.
  - intros (r' & Hr' & Hin).
    apply elem_of_cons in Hr' as [-> | Hr'].
    + apply rmatch_lit_i in Hin as (w & ?). exists n0, w. split; [left|done].
    + apply list_elem_of_fmap in Hr' as (name & -> & Hname).
      apply rmatch_lit_i in Hin as (w & ?). exists name, w.
      split; [by right|done].
  - intros (name & w & Hname & Hw). exists (lit_i (py name)). split.
    + apply elem_of_cons in Hname as [-> | Hname]; [left|right].
      apply list_elem_of_fmap. by exists name.
    + apply rmatch_lit_i. by exists w.
Qed.

(** A pattern between two [\b] matches where it does with a word
    boundary on either side. *)
Lemma rmatch_between_boundaries (r : re) (st m : mstate) :
  m ∈ rmatch (seq_of [WordB; r; WordB]) st
  ↔ at_boundary (m_prev st) (m_rest st) = true
    ∧ m ∈ rmatch r st
    ∧ at_boundary (m_prev m) (m_rest m) = true.
Proof.
  cbn [seq_of rmatch]. split.
  - intros Hin.
    apply list_elem_of_bind in Hin as (st1 & Hin & H1).
    destruct (at_boundary (m_prev st) (m_rest st));
      [|by apply elem_of_nil in H1].
    apply list_elem_of_singleton in H1 as ->.
    apply list_elem_of_bind in Hin as (st2 & Hin & H2).
    apply list_elem_of_bind in Hin as (st3 & Hin & H3).
    destruct (at_boundary (m_prev st2) (m_rest st2)) eqn:E;
      [|by apply elem_of_nil in H3].
    apply list_elem_of_singleton in H3 as ->.
    apply list_elem_of_singleton in Hin as ->. done.
  - intros (Hb1 & Hin & Hb2). rewrite Hb1.
    apply list_elem_of_bind. exists st. split; [|by apply list_elem_of_singleton].
    apply list_elem_of_bind. exists m. split; [|done].
    rewrite Hb2.
    apply list_elem_of_bind. exists m. by split; apply list_elem_of_singleton.
Qed.

Lemma matched_head (l : list mstate) : matched (head l) = true ↔ ∃ m, m ∈ l.
Proof.
  destruct l as [|m l]; cbn.
  - split; [done|]. intros [m Hm]. by apply elem_of_nil in Hm.
  - split; [|done]. intros _. exists m. left.
Qed.

(** [search] for a word pattern succeeds exactly when the subject has a
    whole word the pattern can consume. *)
Lemma search_between_boundaries (r : re) (s : pystr) :
  matched (search (seq_of [WordB; r; WordB]) s) = true
  ↔ ∃ pre post m,
      s = pre ++ post
      ∧ at_boundary (last pre) post = true
      ∧ m ∈ rmatch r (MState (last pre) post None)
      ∧ at_boundary (m_prev m) (m_rest m) = true.
Proof.
  unfold search. rewrite search_from_matched. unfold match_at.
  setoid_rewrite matched_head. setoid_rewrite rmatch_between_boundaries.
  setoid_rewrite last_of_None. cbn [m_prev m_rest]. naive_solver.
Qed.

Lemma spelled_word_occurs (pre w post : pystr) :
  at_boundary (last pre) (w ++ post) = true →
  at_boundary (last_of (last pre) w) post = true →
  occurs_as_word w (pre ++ w ++ post).
Proof.
  intros Hb1 Hb2. exists pre, post. split; [done|].
  rewrite <- (last_of_None pre), last_of_app, last_of_None in Hb2.
  split; by apply at_boundary_word_boundary.
Qed.

Lemma occurs_spelled_word (pre w post : pystr) :
  word_boundary pre (w ++ post) → word_boundary (pre ++ w) post →
  at_boundary (last pre) (w ++ post) = true
  ∧ at_boundary (last_of (last pre) w) post = true.
Proof.
  intros Hb1 Hb2. split; [by apply at_boundary_word_boundary|].
  rewrite <- (last_of_None pre), last_of_app, last_of_None.
  by apply at_boundary_word_boundary.
Qed.

(** [\bname\b] under [re.IGNORECASE] *)
Lemma search_word_i (kw : string) (s : pystr) :
  matched (search (word_i kw) s) = true ↔ occurs_as_word_i (py kw) s.
Proof.
  unfold word_i. rewrite search_between_boundaries. split.
  - intros (pre & post & m & -> & Hb1 & Hin & Hb2).
    apply rmatch_lit_i in Hin as (w & Hw & Hrest & Hprev & _).
    cbn [m_rest m_prev] in *. subst post. rewrite Hprev in Hb2.
    exists w. split; [done|]. by apply spelled_word_occurs.
  - intros (w & Hw & pre & post & -> & Hb1 & Hb2).
    destruct (occurs_spelled_word pre w post Hb1 Hb2) as [Ha1 Ha2].
    exists pre, (w ++ post), (MState (last_of (last pre) w) post None).
    split_and!; [done..| |done].
    apply rmatch_lit_i. by exists w.
Qed.

(** [\b(name|...|name)\b] under [re.IGNORECASE] *)
Lemma search_names (n0 : string) (ns : list string) (s : pystr) :
  matched (search (seq_of [WordB;
                           Grp (alt_of (lit_i (py n0)) (lit_i ∘ py <$> ns));
                           WordB]) s) = true
  ↔ ∃ name, name ∈ n0 :: ns ∧ occurs_as_word_i (py name) s.
Proof.
  rewrite search_between_boundaries. split.
  - intros (pre & post & m & -> & Hb1 & Hin & Hb2).
    cbn [rmatch] in Hin. apply list_elem_of_fmap in Hin as (st' & -> & Hin).
    apply rmatch_names in Hin as (name & w & Hname & Hw & Hrest & Hprev & _).
    cbn [m_rest m_prev] in *. subst post. rewrite Hprev in Hb2.
    exists name. split; [done|]. exists w. split; [done|].
    by apply spelled_word_occurs.
  - intros (name & Hname & w & Hw & pre & post & -> & Hb1 & Hb2).
    destruct (occurs_spelled_word pre w post Hb1 Hb2) as [Ha1 Ha2].
    exists pre, (w ++ post),
      (MState (last_of (last pre) w) post (Some (consumed (w ++ post) post))).
    split_and!; [done..| |done].
    cbn [rmatch]. apply list_elem_of_fmap.
    exists (MState (last_of (last pre) w) post None). split; [done|].
    apply rmatch_names. by exists name, w.
Qed.

(** Every match of [finditer] is the match reported at some position of
    the string. *)
Lemma finditer_from_groups (r : re) (s : pystr) :
  ∀ (prev : option N) (pos skip : nat) (f : found),
    f ∈ finditer_from r prev s pos skip →
    ∃ pre post m,
      s = pre ++ post ∧ match_at r (last_of prev pre) post = Some m
      ∧ f_group f = group1 m.
Proof.
  induction s as [|x s IH]; intros prev pos skip f Hin.
  - destruct skip; cbn [finditer_from] in Hin; [|by apply elem_of_nil in Hin].
    destruct (match_at r prev []) as [m|] eqn:E;
      [|by apply elem_of_nil in Hin].
    apply list_elem_of_singleton in Hin as ->.
    by exists [], [], m.
  - assert (∀ pos' skip',
              f ∈ finditer_from r (Some x) s pos' skip' →
              ∃ pre post m,
                x :: s = pre ++ post
                ∧ match_at r (last_of prev pre) post = Some m
                ∧ f_group f = group1 m) as Hrec.
    { intros pos' skip' Hf.
      apply IH in Hf as (pre & post & m & -> & Hm & Hg).
      exists (x :: pre), post, m.
      by rewrite <- (last_of_cons prev). }
    destruct skip; cbn [finditer_from] in Hin; [|by eapply Hrec].
    destruct (match_at r prev (x :: s)) as [m|] eqn:E; [|by eapply Hrec].
    apply elem_of_cons in Hin as [-> | Hin]; [|by eapply Hrec].
    by exists [], (x :: s), m.
Qed.

(** The commands of the pattern, as the source spells them. *)
Lemma command_names_valid :
  Forall (λ name : string, ascii_lower (py name) ∈ VALID_COMMANDS)
    ["toggle"; "add"; "remove"; "removeClass"; "show"; "hide"; "set"; "get";
     "put"; "append"; "take"; "increment"; "decrement"; "log"; "send";
     "trigger"; "wait"; "transition"; "go"; "call"; "focus"; "blur";
     "return"]%string.
Proof. by_computation. Qed.

(** Under [re.IGNORECASE] a letter of the pattern matches what its
    lower-case form matches. *)
Lemma ch_i_lower (p x : N) :
  ch_i (if (65 <=? p) && (p <=? 90) then p + 32 else p) x = ch_i p x.
Proof.
  destruct ((65 <=? p) && (p <=? 90)) eqn:Hup; [|done].
  apply andb_true_iff in Hup as Hp. destruct Hp as [L1%N.leb_le L2%N.leb_le].
  assert ((65 <=? p + 32) && (p + 32 <=? 90) = false) as Hno.
  { apply andb_false_iff. right. apply N.leb_gt. lia. }
  assert ((97 <=? p + 32) && (p + 32 <=? 122) = true) as Hyes.
  { apply andb_true_iff. split; apply N.leb_le; lia. }
  unfold ch_i. rewrite Hup, Hno. cbv zeta. by rewrite Hyes.
Qed.

(** An ASCII code point matched by a letter of the pattern lower-cases to
    the lower-case form of that letter. *)
Lemma ch_i_ascii (p x : N) :
  ch_i p x = true → x < 128 →
  (if (65 <=? x) && (x <=? 90) then x + 32 else x)
  = (if (65 <=? p) && (p <=? 90) then p + 32 else p).
Proof.
  unfold ch_i. intros Hm Hx.
  set (lo := if (65 <=? p) && (p <=? 90) then p + 32 else p) in *.
  destruct ((97 <=? lo) && (lo <=? 122)) eqn:Hlo.
  - apply andb_true_iff in Hlo as [L1%N.leb_le L2%N.leb_le].
    assert (x = lo ∨ x = lo - 32) as [-> | ->].
    { repeat (apply orb_true_iff in Hm as [Hm | Hm]).
      - left. by apply N.eqb_eq.
      - right. by apply N.eqb_eq.
      - apply andb_true_iff in Hm as [_ Hm].
        apply orb_true_iff in Hm as [Hm%N.eqb_eq | Hm%N.eqb_eq]; lia.
      - apply andb_true_iff in Hm as [_ Hm%N.eqb_eq]. lia.
      - apply andb_true_iff in Hm as [_ Hm%N.eqb_eq]. lia. }
    + destruct (N.leb_spec 65 lo), (N.leb_spec lo 90); cbn [andb];
        try done; lia.
    + destruct (N.leb_spec 65 (lo - 32)), (N.leb_spec (lo - 32) 90);
        cbn [andb]; lia.
  - apply N.eqb_eq in Hm as <-. done.
Qed.

Lemma spells_lower (name w : pystr) :
  spells name w → spells (ascii_lower name) w.
Proof.
  unfold spells. intros Hall. unfold ascii_lower. apply Forall2_fmap_l.
  eapply Forall2_impl; [done|]. intros p x Hm. cbn.
  by rewrite ch_i_lower.
Qed.

Lemma spells_ascii (name w : pystr) :
  spells name w → Forall (λ c, c < 128) w →
  ascii_lower w = ascii_lower name.
Proof.
  unfold ascii_lower, spells.
  induction 1 as [|p x name w Hm _ IH]; [done|].
  intros [Hx Hw]%Forall_cons. cbn [fmap list_fmap]. f_equal.
  - by apply ch_i_ascii.
  - by apply IH.
Qed.

(** What [finditer] reports for [COMMAND_PATTERN]. *)
Lemma command_matches (script : pystr) (f : found) :
  f ∈ finditer COMMAND_PATTERN script →
  ∃ name : string,
    ascii_lower (py name) ∈ VALID_COMMANDS
    ∧ spells (py name) (f_group f)
    ∧ occurs_as_word (f_group f) script.
Proof.
  intros Hin.
  apply finditer_from_groups in Hin as (pre & rest & m & -> & Hm & ->).
  apply head_Some_elem_of in Hm. unfold COMMAND_PATTERN in Hm.
  apply rmatch_between_boundaries in Hm as (Hb1 & Hm & Hb2).
  cbn [rmatch] in Hm. apply list_elem_of_fmap in Hm as (st' & -> & Hst').
  apply rmatch_names in Hst' as (name & w & Hname & Hw & Hrest & Hprev & _).
  cbn [m_rest m_prev m_group] in *. subst rest.
  rewrite Hprev in Hb2. rewrite last_of_None in Hb1, Hb2.
  unfold group1. cbn [m_group default].
  assert (consumed (w ++ m_rest st') (m_rest st') = w) as ->.
  { unfold consumed. rewrite length_app.
    replace (length w + length (m_rest st') - length (m_rest st'))%nat
      with (length w) by lia.
    apply take_app_length. }
  exists name. split; [|split; [exact Hw|by apply spelled_word_occurs]].
  pose proof command_names_valid as Hall. rewrite Forall_forall in Hall.
  by apply Hall.
Qed.

(** X22: every command [analyze_script] reports is the lower-cased form
    of a whole word of the script that spells a valid command up to
    case; when the script is ASCII, and [lower] is the ASCII mapping
    there, the commands reported are among [VALID_COMMANDS]. *)
Theorem analyze_script_commands_valid (script : pystr) :
  (∀ c, c ∈ commands (analyze_script script) →
     ∃ name w,
       name ∈ VALID_COMMANDS ∧ spells name w ∧ occurs_as_word w script
       ∧ c = lower w)
  ∧ ((∀ w, Forall (λ c, c < 128) w → lower w = ascii_lower w) →
     Forall (λ c, c < 128) script →
     commands (analyze_script script) ⊆ VALID_COMMANDS).
Proof.
  assert (∀ c, c ∈ commands (analyze_script script) →
            ∃ f, f ∈ finditer COMMAND_PATTERN script
                 ∧ c = lower (f_group f)) as Hcmd.
  { intros c Hc. unfold analyze_script in Hc. cbn [commands] in Hc.
    apply elem_of_list_to_set, list_elem_of_fmap in Hc as (f & -> & Hf).
    by exists f. }
  split.
  - intros c (f & Hf & ->)%Hcmd.
    apply command_matches in Hf as (name & Hv & Hall & Hocc).
    exists (ascii_lower (py name)), (f_group f).
    split; [exact Hv|]. split; [by apply spells_lower|].
    split; [exact Hocc|reflexivity].
  - intros Hlower Hascii c (f & Hf & ->)%Hcmd.
    apply command_matches in Hf
      as (name & Hv & Hall & pre & post & Hs & _).
    rewrite Hs, !Forall_app in Hascii. destruct Hascii as (_ & Hw & _).
    by rewrite (Hlower _ Hw), (spells_ascii _ _ Hall Hw).
Qed.

(** X23: the positional flag is set exactly when one of the six
    positional words occurs in the script as a whole word, in any letter
    case. *)
Theorem analyze_script_positional (script : pystr) :
  positional (analyze_script script) = true
  ↔ ∃ name, name ∈ ["first"; "last"; "next"; "previous"; "closest";
                    "parent"]%string
            ∧ occurs_as_word_i (py name) script.
Proof.
  unfold analyze_script. cbn [positional]. unfold POSITIONAL_PATTERN.
  apply search_names.
Qed.

Lemma blocks_loop_elem (script : pystr) (table : list (pystr * re)) :
  ∀ (bs : gset pystr) (b : pystr),
    b ∈ foldl (λ bs '(block_name, pattern),
                 if matched (search pattern script) then
                   if bool_decide (block_name = py "unless")
                   then bs ∪ {[py "if"]} else bs ∪ {[block_name]}
                 else bs)
              bs table
    ↔ b ∈ bs
      ∨ ∃ name pattern,
          (name, pattern) ∈ table
          ∧ matched (search pattern script) = true
          ∧ b = (if bool_decide (name = py "unless") then py "if" else name).
Proof.
  induction table as [|[name pattern] table IH]; intros bs b.
  - cbn [foldl]. split; [by left|].
    intros [?|(? & ? & Hin & _)]; [done|by apply elem_of_nil in Hin].
  - cbn [foldl]. rewrite IH. split.
    + intros [Hb | (n & p & Hin & Hm & Hb)].
      * destruct (matched (search pattern script)) eqn:E; [|by left].
        destruct (bool_decide (name = py "unless")) eqn:Eu;
          apply elem_of_union in Hb as [Hb | ->%elem_of_singleton];
          try (by left); right; exists name, pattern;
          (split; [left|]); by rewrite Eu.
      * right. exists n, p. split; [by right|done].
    + intros [Hb | (n & p & Hin & Hm & Hb)].
      * left. destruct (matched _); [|done].
        destruct (bool_decide _); apply elem_of_union; by left.
      * apply elem_of_cons in Hin as [[= -> ->] | Hin].
        -- left. rewrite Hm, Hb.
           destruct (bool_decide _); apply elem_of_union; right;
             by apply elem_of_singleton.
        -- right. eauto.
Qed.

(** What the block loop of [analyze_script] reports. *)
Lemma analyze_script_blocks_elem (script b : pystr) :
  b ∈ blocks (analyze_script script)
  ↔ ∃ name pattern,
      (name, pattern) ∈ BLOCK_PATTERNS
      ∧ matched (search pattern script) = true
      ∧ b = (if bool_decide (name = py "unless") then py "if" else name).
Proof.
  unfold analyze_script. cbn [blocks]. rewrite blocks_loop_elem.
  split; [|by right]. intros [Hb | ?]; [|done].
  by apply not_elem_of_empty in Hb.
Qed.

(** X6: the blocks [analyze_script] reports are always among
    [VALID_BLOCKS]; a match of unless is reported as if and never under
    its own name. *)
Theorem analyze_script_blocks_valid (script : pystr) :
  blocks (analyze_script script) ⊆ VALID_BLOCKS
  ∧ (py "unless" ∉ blocks (analyze_script script))
  ∧ (matched (search (word_i "unless") script) = true →
     py "if" ∈ blocks (analyze_script script))
  ∧ (occurs_as_word_i (py "unless") script →
     py "if" ∈ blocks (analyze_script script)).
Proof.
  assert (blocks (analyze_script script) ⊆ VALID_BLOCKS) as Hsub.
  { unfold analyze_script. cbn [blocks].
    apply blocks_loop_valid; [apply block_names_valid | apply empty_subseteq]. }
  assert (matched (search (word_i "unless") script) = true →
          py "if" ∈ blocks (analyze_script script)) as Hunless.
  { intros Hm. apply analyze_script_blocks_elem.
    exists (py "unless"), (word_i "unless"). split; [right; left|].
    split; [done|]. by_computation. }
  split_and!; [done| |done|].
  - intros Hin. apply Hsub in Hin. revert Hin. by_computation.
  - intros Hocc. by apply Hunless, search_word_i.
Qed.

Ltac block_entry Hin Hm Hb :=
  unfold BLOCK_PATTERNS in Hin;
  repeat (apply elem_of_cons in Hin as [[= -> ->] | Hin]);
  [..|by apply elem_of_nil in Hin];
  first [ exfalso; clear Hm; revert Hb; by_computation
        | apply search_word_i in Hm ].

(** X24: the block if is reported exactly when if or unless occurs in
    the script as a whole word, in any letter case; while, fetch and
    async are reported exactly when they so occur. *)
Theorem analyze_script_word_blocks (script : pystr) :
  (py "if" ∈ blocks (analyze_script script)
   ↔ occurs_as_word_i (py "if") script
     ∨ occurs_as_word_i (py "unless") script)
  ∧ (py "while" ∈ blocks (analyze_script script)
     ↔ occurs_as_word_i (py "while") script)
  ∧ (py "fetch" ∈ blocks (analyze_script script)
     ↔ occurs_as_word_i (py "fetch") script)
  ∧ (py "async" ∈ blocks (analyze_script script)
     ↔ occurs_as_word_i (py "async") script).
Proof.
  split_and!; rewrite analyze_script_blocks_elem; split.
  - intros (name & pattern & Hin & Hm & Hb).
    block_entry Hin Hm Hb; [by left|by right].
  - intros [Hocc | Hocc]; apply search_word_i in Hocc.
    + exists (py "if"), (word_i "if"). split; [left|]. split; [done|].
      by_computation.
    + exists (py "unless"), (word_i "unless"). split; [right; left|].
      split; [done|]. by_computation.
  - intros (name & pattern & Hin & Hm & Hb). by block_entry Hin Hm Hb.
  - intros Hocc%search_word_i.
    exists (py "while"), (word_i "while").
    split; [do 4 right; left|]. split; [done|]. by_computation.
  - intros (name & pattern & Hin & Hm & Hb). by block_entry Hin Hm Hb.
  - intros Hocc%search_word_i.
    exists (py "fetch"), (word_i "fetch").
    split; [do 5 right; left|]. split; [done|]. by_computation.
  - intros (name & pattern & Hin & Hm & Hb). by block_entry Hin Hm Hb.
  - intros Hocc%search_word_i.
    exists (py "async"), (word_i "async").
    split; [do 6 right; left|]. split; [done|]. by_computation.
Qed.

End Words.

Lemma analyze_script_blocks_valid_witness :
  let script := py "Unless me matches .on add .on" in
  occurs_as_word_i (py "unless") script
  ∧ py "if" ∈ blocks (analyze_script script)
  ∧ blocks (analyze_script script) = {[py "if"]}.
Proof.
  cbv zeta.
  assert (occurs_as_word_i (py "unless")
            (py "Unless me matches .on add .on")) as Hocc.
  { apply search_word_i. by vm_compute. }
  split; [done|]. split; [|by_computation].
  by apply (analyze_script_blocks_valid (py "Unless me matches .on add .on")).
Defined.

Lemma analyze_script_commands_valid_witness :
  let script := py "on click Toggle .active then removeClass .x" in
  (∀ w, Forall (λ c, c < 128) w → lower w = ascii_lower w)
  ∧ Forall (λ c, c < 128) script
  ∧ commands (analyze_script script) ⊆ VALID_COMMANDS.
Proof.
  cbv zeta.
  assert (∀ w, Forall (λ c, c < 128) w → lower w = ascii_lower w) as Hlower.
  { intros w _. reflexivity. }
  assert (Forall (λ c, c < 128)
            (py "on click Toggle .active then removeClass .x")) as Hascii.
  { by_computation. }
  split; [done|]. split; [done|].
  by apply (analyze_script_commands_valid
              (py "on click Toggle .active then removeClass .x")).
Defined.
